(** * aslap: "as slow as possible"

    A shallow embedding of [main.go]: the delay function [bePatient], its
    debugging decorator [printImpatiently], the flush selection [makeFlush]
    and the copy loop [copyRunesWithPatience], together with the parts of
    Go's [unicode/utf8] and [bufio] packages the loop runs on.

    Conventions.
    - Go's [rune] is [int32] and [time.Duration] is [int64]; both are
      carried by [Z], with the wrap-around of the machine type written out.
    - A byte is a [Z] in [0, 255]; a byte slice is a [list Z].
    - Calls that leave the program ([Write], [Flush], [Sync], [time.Sleep],
      [fmt.Fprintf]) are recorded, in order, in a log of events; the code
      is written in a state monad over that log. *)

From Stdlib Require Import String Ascii.
From Stdlib Require Import ZArith List Bool Lia Znumtheory.
Import ListNotations.
Local Open Scope Z_scope.

(** ** Machine integers *)

(** Two's complement reduction to [w] bits. *)
Definition wrap (w x : Z) : Z := (x + 2 ^ (w - 1)) mod 2 ^ w - 2 ^ (w - 1).

Definition wrap32 : Z -> Z := wrap 32.
Definition wrap64 : Z -> Z := wrap 64.

Definition in_int32 (x : Z) : Prop := - 2 ^ 31 <= x < 2 ^ 31.
Definition in_int64 (x : Z) : Prop := - 2 ^ 63 <= x < 2 ^ 63.

(** [rune] is an alias of [int32]. *)
Definition rune := Z.

(** [time.Duration] is an [int64] count of nanoseconds. *)
Definition Duration := Z.

Definition dur_add (a b : Duration) : Duration := wrap64 (a + b).
Definition dur_mul (a b : Duration) : Duration := wrap64 (a * b).

Definition Nanosecond : Duration := 1.
Definition Millisecond : Duration := 1000000.
Definition Second : Duration := 1000000000.

(** [utf8.MaxRune] and [utf8.RuneError]. *)
Definition MaxRune : rune := 0x10FFFF.
Definition RuneError : rune := 0xFFFD.

(** ** The outside world *)

(** Go's [error] values that the program can meet. *)
Inductive error : Type :=
| io_EOF
| io_ErrNoProgress
| Errno (msg : string).

(** An argument of a [fmt.Fprintf] call. *)
Inductive arg : Type :=
| ArgString (s : list Z)
| ArgRune (r : rune)
| ArgDuration (d : Duration).

(** One call that leaves the program.  The first component of the events
    about a writer is the writer's name. *)
Inductive event : Type :=
| EvWrite (w : string) (p : list Z) (err : option error)
| EvFlush (w : string)
| EvFlushErr (w : string)
| EvSync (w : string)
| EvSleep (d : Duration)
| EvFprintf (w : string) (format : string) (args : list arg).

Definition World := list event.

(** The state monad over the log. *)
Definition M (A : Type) : Type := World -> A * World.

Definition ret {A} (a : A) : M A := fun w => (a, w).
Definition bind {A B} (m : M A) (k : A -> M B) : M B :=
  fun w => let (a, w') := m w in k a w'.
Definition emit (e : event) : M unit := fun w => (tt, w ++ [e]).

Declare Scope go_scope.
Delimit Scope go_scope with go.
Notation "x <- c1 ;; c2" := (bind c1 (fun x => c2))
  (at level 100, c1 at next level, right associativity) : go_scope.
Notation "c1 ;;; c2" := (bind c1 (fun _ => c2))
  (at level 100, right associativity) : go_scope.

(** A function either returns or panics. *)
Inductive result (A : Type) : Type :=
| Ok (a : A)
| Panic (msg : string).
Arguments Ok {A} a.
Arguments Panic {A} msg.

(** ** The delay function *)

(** [type patience func(rune) time.Duration] *)
Definition patience := rune -> M Duration.

(** [bePatient]: [bits] is a [uint]. The literal [0x1] takes the type of
    the conversion around the shift, [rune]. *)
Definition bePatient (bits : Z) (initial step : Duration) : result patience :=
  if 8 <=? bits then Panic "too many bits"%string
  else
    let mask := wrap32 (wrap32 (Z.shiftl 1 bits) - 1) in
    Ok (fun b => ret (dur_add initial (dur_mul step (Z.land mask b)))).

(** ** Package [unicode/utf8] *)

Module utf8.

Definition RuneSelf : Z := 0x80.
Definition surrogateMin : Z := 0xD800.
Definition surrogateMax : Z := 0xDFFF.

Definition t1 : Z := 0x00.
Definition tx : Z := 0x80.
Definition t2 : Z := 0xC0.
Definition t3 : Z := 0xE0.
Definition t4 : Z := 0xF0.

Definition maskx : Z := 0x3F.
Definition mask2 : Z := 0x1F.
Definition mask3 : Z := 0x0F.
Definition mask4 : Z := 0x07.

Definition rune1Max : Z := 0x7F.
Definition rune2Max : Z := 0x7FF.
Definition rune3Max : Z := 0xFFFF.

Definition locb : Z := 0x80.
Definition hicb : Z := 0xBF.

(** Information about the first byte of an encoding: the low three bits
    are the length, the high four an index into [acceptRanges]. *)
Definition xx : Z := 0xF1.
Definition as_ : Z := 0xF0.
Definition s1 : Z := 0x02.
Definition s2 : Z := 0x13.
Definition s3 : Z := 0x03.
Definition s4 : Z := 0x23.
Definition s5 : Z := 0x34.
Definition s6 : Z := 0x04.
Definition s7 : Z := 0x44.

(** The table [first [256]uint8], by ranges of its index. *)
Definition first (b : Z) : Z :=
  if b <? 0x80 then as_
  else if b <? 0xC2 then xx
  else if b <? 0xE0 then s1
  else if b =? 0xE0 then s2
  else if b <? 0xED then s3
  else if b =? 0xED then s4
  else if b <? 0xF0 then s3
  else if b =? 0xF0 then s5
  else if b <? 0xF4 then s6
  else if b =? 0xF4 then s7
  else xx.

(** The table [acceptRanges [16]acceptRange] as [(lo, hi)]; the entries
    past the fifth are zero. *)
Definition acceptRanges (i : Z) : Z * Z :=
  if i =? 0 then (locb, hicb)
  else if i =? 1 then (0xA0, hicb)
  else if i =? 2 then (locb, 0x9F)
  else if i =? 3 then (0x90, hicb)
  else if i =? 4 then (locb, 0x8F)
  else (0, 0).

(** [p[i]]; every use below is behind a test of [len(p)]. *)
Definition at_ (p : list Z) (i : nat) : Z := nth i p 0.

(** [func DecodeRune(p []byte) (r rune, size int)] *)
Definition DecodeRune (p : list Z) : rune * nat :=
  let n := length p in
  if (n <? 1)%nat then (RuneError, 0%nat)
  else
    let p0 := at_ p 0 in
    let x := first p0 in
    if as_ <=? x then
      (* rune(x) << 31 >> 31 is 0 for [as] and -1 for [xx] *)
      let mask := Z.shiftr (wrap32 (Z.shiftl x 31)) 31 in
      (Z.lor (Z.land p0 (Z.lnot mask)) (Z.land RuneError mask), 1%nat)
    else
      let sz := Z.to_nat (Z.land x 7) in
      let accept := acceptRanges (Z.shiftr x 4) in
      if (n <? sz)%nat then (RuneError, 1%nat)
      else
        let b1 := at_ p 1 in
        if (b1 <? fst accept) || (snd accept <? b1) then (RuneError, 1%nat)
        else if (sz <=? 2)%nat then
          (Z.lor (Z.shiftl (Z.land p0 mask2) 6) (Z.land b1 maskx), 2%nat)
        else
          let b2 := at_ p 2 in
          if (b2 <? locb) || (hicb <? b2) then (RuneError, 1%nat)
          else if (sz <=? 3)%nat then
            (Z.lor (Z.lor (Z.shiftl (Z.land p0 mask3) 12)
                          (Z.shiftl (Z.land b1 maskx) 6))
                   (Z.land b2 maskx), 3%nat)
          else
            let b3 := at_ p 3 in
            if (b3 <? locb) || (hicb <? b3) then (RuneError, 1%nat)
            else
              (Z.lor (Z.lor (Z.lor (Z.shiftl (Z.land p0 mask4) 18)
                                   (Z.shiftl (Z.land b1 maskx) 12))
                            (Z.shiftl (Z.land b2 maskx) 6))
                     (Z.land b3 maskx), 4%nat).

(** [func FullRune(p []byte) bool] *)
Definition FullRune (p : list Z) : bool :=
  let n := length p in
  if (n =? 0)%nat then false
  else
    let x := first (at_ p 0) in
    if (Z.to_nat (Z.land x 7) <=? n)%nat then true
    else
      let accept := acceptRanges (Z.shiftr x 4) in
      if (1 <? n)%nat && ((at_ p 1 <? fst accept) || (snd accept <? at_ p 1)) then true
      else if (2 <? n)%nat && ((at_ p 2 <? locb) || (hicb <? at_ p 2)) then true
      else false.

(** The conversion [byte(x)]. *)
Definition byte (x : Z) : Z := x mod 256.

(** [func EncodeRune(p []byte, r rune) int], returning the bytes written. *)
Definition EncodeRune (r : rune) : list Z :=
  let i := r mod 2 ^ 32 in
  if i <=? rune1Max then [byte r]
  else if i <=? rune2Max then
    [Z.lor t2 (byte (Z.shiftr r 6)); Z.lor tx (Z.land (byte r) maskx)]
  else
    let enc3 (r : rune) :=
      [Z.lor t3 (byte (Z.shiftr r 12));
       Z.lor tx (Z.land (byte (Z.shiftr r 6)) maskx);
       Z.lor tx (Z.land (byte r) maskx)] in
    if (MaxRune <? i) || ((surrogateMin <=? i) && (i <=? surrogateMax)) then
      enc3 RuneError
    else if i <=? rune3Max then enc3 r
    else
      [Z.lor t4 (byte (Z.shiftr r 18));
       Z.lor tx (Z.land (byte (Z.shiftr r 12)) maskx);
       Z.lor tx (Z.land (byte (Z.shiftr r 6)) maskx);
       Z.lor tx (Z.land (byte r) maskx)].

End utf8.

(** The conversion [string(r)] of a rune: its UTF-8 encoding, and that of
    U+FFFD for a value that is no code point. *)
Definition string_of_rune (r : rune) : list Z := utf8.EncodeRune r.

(** ** Readers and package [bufio] *)

(** An [io.Reader] is given by what its successive [Read] calls return:
    the bytes stored and the error.  A reader whose script is used up
    returns [0, io.EOF]. *)
Definition ReadResult : Type := list Z * option error.
Definition Reader : Type := list ReadResult.

Module bufio.

Definition maxConsecutiveEmptyReads : nat := 100.

(** [var errorRune = []byte(string(utf8.RuneError))] *)
Definition errorRune : list Z := string_of_rune RuneError.

(** [func ScanRunes(data []byte, atEOF bool) (advance int, token []byte, err error)].
    The error is always nil and is left out; a nil token is [None].
    On empty data without [atEOF] the Go function panics at [data[0]];
    [Scanner.Scan] calls its split function only on data that is not empty
    or with [atEOF] set, and so does [Scan] below, which never uses the
    value of the model there. *)
Definition ScanRunes (data : list Z) (atEOF : bool) : nat * option (list Z) :=
  if atEOF && (length data =? 0)%nat then (0%nat, None)
  else if utf8.at_ data 0 <? utf8.RuneSelf then (1%nat, Some (firstn 1 data))
  else
    let width := snd (utf8.DecodeRune data) in
    if (1 <? width)%nat then (width, Some (firstn width data))
    else if negb atEOF && negb (utf8.FullRune data) then (0%nat, None)
    else (1%nat, Some errorRune).

(** The fields of [bufio.Scanner] the program depends on: the reader, the
    unread part of the buffer [buf[start:end]], the sticky error and the
    last token. *)
Record Scanner : Type := mkScanner {
  s_r : Reader;
  s_buf : list Z;
  s_err : option error;
  s_token : list Z
}.

(** [func NewScanner(r io.Reader) *Scanner] *)
Definition NewScanner (r : Reader) : Scanner := mkScanner r [] None [].

Definition is_set {A} (o : option A) : bool :=
  match o with Some _ => true | None => false end.

(** The tail of one iteration of [Scan]'s loop once [s.err] is [e]: the
    split function sees the rest of the buffer with [atEOF] set; when it
    has no token left the scanner shuts down. *)
Definition scan_at_end (r : Reader) (buf : list Z) (e : error) : bool * Scanner :=
  match ScanRunes buf true with
  | (advance, Some token) => (true, mkScanner r (skipn advance buf) (Some e) token)
  | (_, None) => (false, mkScanner r [] (Some e) [])
  end.

(** The part of [Scan]'s loop that reads: entered with [s.err == nil] when
    the split function asked for more than [buf].  [loop] counts the reads
    that returned nothing since data last arrived. *)
Fixpoint scan_read (r : Reader) (buf : list Z) (loop : nat) : bool * Scanner :=
  match r with
  | [] => scan_at_end [] buf io_EOF
  | (bs, Some e) :: r' => scan_at_end r' (buf ++ bs) e
  | (bs, None) :: r' =>
      if (0 <? length bs)%nat then
        match ScanRunes (buf ++ bs) false with
        | (advance, Some token) =>
            (true, mkScanner r' (skipn advance (buf ++ bs)) None token)
        | (_, None) => scan_read r' (buf ++ bs) 0
        end
      else if (maxConsecutiveEmptyReads <? S loop)%nat then
        scan_at_end r' buf io_ErrNoProgress
      else scan_read r' buf (S loop)
  end.

(** [func (s *Scanner) Scan() bool] *)
Definition Scan (s : Scanner) : bool * Scanner :=
  let more (_ : unit) :=
    match s_err s with
    | Some e => (false, mkScanner (s_r s) [] (Some e) [])
    | None => scan_read (s_r s) (s_buf s) 0
    end in
  if (0 <? length (s_buf s))%nat || is_set (s_err s) then
    match ScanRunes (s_buf s) (is_set (s_err s)) with
    | (advance, Some token) =>
        (true, mkScanner (s_r s) (skipn advance (s_buf s)) (s_err s) token)
    | (_, None) => more tt
    end
  else more tt.

(** [func (s *Scanner) Bytes() []byte] *)
Definition Bytes (s : Scanner) : list Z := s_token s.

(** [func (s *Scanner) Err() error] *)
Definition Err (s : Scanner) : option error :=
  match s_err s with
  | Some io_EOF => None
  | e => e
  end.

End bufio.

(** ** Writers *)

(** The signature of the method called [Flush] in a writer's method set;
    a Go type has at most one method of a given name. *)
Inductive FlushSig : Type :=
| FlushPlain     (* Flush() *)
| FlushFallible. (* Flush() error *)

(** An [io.Writer]: a name for the log, what [Write] returns given the
    calls made so far, and the part of the method set [makeFlush] looks
    at.  A method [Flush] or [Sync] of another signature counts as none. *)
Record Writer : Type := mkWriter {
  w_name : string;
  w_write : World -> list Z -> option error;
  w_flush : option FlushSig;
  w_sync : bool
}.

(** [dst.Write(p)]; the program never looks at the count. *)
Definition Write (dst : Writer) (p : list Z) : M (option error) :=
  fun w => let err := w_write dst w p in (err, w ++ [EvWrite (w_name dst) p err]).

(** [time.Sleep(d)] *)
Definition Sleep (d : Duration) : M unit := emit (EvSleep d).

(** [fmt.Fprintf(dst, format, args...)], its results dropped. *)
Definition Fprintf (dst : Writer) (format : string) (args : list arg) : M unit :=
  emit (EvFprintf (w_name dst) format args).

(** [syscall.EPIPE], the error of a write to a pipe or a socket whose
    other end is closed. *)
Definition syscall_EPIPE : error := Errno "broken pipe".

(** [os.Stdout] is an [*os.File]: it has [Sync() error] and no [Flush].
    What its writes return is up to the environment.  One answer is not
    returned to the caller by the real [Write] of an [os.File] on
    descriptor 1: on [syscall.EPIPE] the Go runtime raises SIGPIPE inside
    the call and the process ends there.  The writer below hands every
    answer back, so it stands for standard output in the runs in which no
    write to it is answered with [syscall_EPIPE]. *)
Definition os_Stdout (write : World -> list Z -> option error) : Writer :=
  mkWriter "os.Stdout" write None true.

(** [ioutil.Discard]: every write succeeds and nothing is kept. *)
Definition ioutil_Discard : Writer :=
  mkWriter "ioutil.Discard" (fun _ _ => None) None false.

(** The interfaces of [makeFlush]'s type switch. *)
Definition is_flusher (w : Writer) : bool :=
  match w_flush w with Some FlushPlain => true | _ => false end.
Definition is_safeFlusher (w : Writer) : bool :=
  match w_flush w with Some FlushFallible => true | _ => false end.
Definition is_syncer (w : Writer) : bool := w_sync w.

(** [func makeFlush(w io.Writer) func()] *)
Definition makeFlush (w : Writer) : M unit :=
  if is_flusher w then emit (EvFlush (w_name w))
  else if is_safeFlusher w then emit (EvFlushErr (w_name w))
  else if is_syncer w then emit (EvSync (w_name w))
  else ret tt.

(** ** The copy loop *)

(** How a loop body leaves: by falling through, by [return err], or
    because the recursion of the model ran out. *)
Inductive flow : Type :=
| Next
| Return (e : error)
| OutOfFuel.

Section Copy.

Variable dst : Writer.
Variable flush : M unit.
Variable patience_ : patience.

Local Open Scope go_scope.

(** [for len(bs) > 0 { ... }] *)
Fixpoint write_runes (fuel : nat) (bs : list Z) : M flow :=
  if (0 <? length bs)%nat then
    match fuel with
    | O => ret OutOfFuel
    | S fuel' =>
        let (r, size) := utf8.DecodeRune bs in
        delay <- patience_ r ;;
        err <- Write dst (firstn size bs) ;;
        match err with
        | Some e => ret (Return e)
        | None =>
            flush ;;;
            Sleep delay ;;;
            write_runes fuel' (skipn size bs)
        end
    end
  else ret Next.

(** [for scanner.Scan() { ... }; return scanner.Err()]; [None] when the
    recursion of the model ran out. *)
Fixpoint scan_loop (fuel : nat) (scanner : bufio.Scanner) : M (option (option error)) :=
  match bufio.Scan scanner with
  | (false, scanner') => ret (Some (bufio.Err scanner'))
  | (true, scanner') =>
      match fuel with
      | O => ret None
      | S fuel' =>
          let bs := bufio.Bytes scanner' in
          fl <- write_runes (length bs) bs ;;
          match fl with
          | Next => scan_loop fuel' scanner'
          | Return e => ret (Some (Some e))
          | OutOfFuel => ret None
          end
      end
  end.

End Copy.

(** The bytes a reader still holds: a bound on the tokens to come. *)
Definition pending (src : Reader) : nat := length (concat (map fst src)).

(** [func copyRunesWithPatience(dst io.Writer, src io.Reader, patience patience) error].
    [copy_total] shows that the loop always ends by itself. *)
Definition copyRunesWithPatience (dst : Writer) (src : Reader) (patience_ : patience)
  : M (option error) :=
  let flush := makeFlush dst in
  let scanner := bufio.NewScanner src in
  fun w =>
    match scan_loop dst flush patience_ (pending src) scanner w with
    | (Some err, w') => (err, w')
    | (None, w') => (None, w')
    end.

(** ** The debugging decorator and [main] *)

Definition newline : string := String (ascii_of_nat 10) EmptyString.

(** [func printImpatiently(dst io.Writer, f patience) patience] *)
Definition printImpatiently (dst : Writer) (f : patience) : patience :=
  fun b =>
    (delay <- f b ;;
     Fprintf dst ("%q %U %s" ++ newline)
       [ArgString (string_of_rune b); ArgRune b; ArgDuration delay] ;;;
     ret delay)%go.

(** The command line: [-base], [-step], [-bits], [-debug]. *)
Record Flags : Type := mkFlags {
  initial : Duration;
  step : Duration;
  bits : Z;
  debug : bool
}.

Definition default_flags : Flags := mkFlags (1 * Second) (100 * Millisecond) 3 false.

(** The exit status of a Go program: 0 when [main] returns, 2 when it
    panics. *)
Definition exit_ok : Z := 0.
Definition exit_panic : Z := 2.

(** [func main()], from the parsed flags, what standard input holds and
    how standard output answers; the result is the exit status.  As with
    [os_Stdout], this covers the runs in which standard output answers no
    write with [syscall_EPIPE]: on a broken pipe the process is ended by
    SIGPIPE inside the write and [main] is never returned to. *)
Definition main (fl : Flags) (stdin : Reader) (stdout : World -> list Z -> option error)
  : M Z :=
  let src := stdin in
  let dst := os_Stdout stdout in
  match bePatient (bits fl) (initial fl) (step fl) with
  | Panic _ => ret exit_panic
  | Ok delay =>
      let (dst, delay) :=
        if debug fl then (ioutil_Discard, printImpatiently (os_Stdout stdout) delay)
        else (dst, delay) in
      (_ <- copyRunesWithPatience dst src delay ;; ret exit_ok)%go
  end.

(** * Specification vocabulary *)

(** ** Code points *)

Definition is_code_point (c : rune) : Prop := 0 <= c <= MaxRune.

(** [utf8.ValidRune]: a code point that is no surrogate half. *)
Definition valid_rune (r : rune) : Prop :=
  0 <= r <= MaxRune /\ ~ (utf8.surrogateMin <= r <= utf8.surrogateMax).

(** ** The values of the delay function *)

(** The delay [bePatient] gives a character, when it does not panic. *)
Definition delay_of (bits : Z) (initial step : Duration) (c : rune) : option Duration :=
  match bePatient bits initial step with
  | Ok f => Some (fst (f c []))
  | Panic _ => None
  end.

(** [vs] lists, without repetition, the delays met over all code points. *)
Definition delay_values (bits : Z) (initial step : Duration) (vs : list Duration) : Prop :=
  NoDup vs /\
  forall d, In d vs <-> exists c, is_code_point c /\ delay_of bits initial step c = Some d.

(** [initial + step * k] for [k] from 0 to [2^bits - 1], in the arithmetic
    of [time.Duration]. *)
Definition spaced_value (initial step : Duration) (k : nat) : Duration :=
  dur_add initial (dur_mul step (Z.of_nat k)).

Definition spaced_delays (bits : Z) (initial step : Duration) : list Duration :=
  map (spaced_value initial step) (seq 0 (Z.to_nat (2 ^ bits))).

(** ** The stream a reader delivers *)

(** The bytes a scanner gets out of a reader and the error that ends
    them: [bufio.Scanner] gives up with [io.ErrNoProgress] after too many
    reads in a row that return neither data nor an error. *)
Fixpoint delivered (r : Reader) (loop : nat) : list Z * error :=
  match r with
  | [] => ([], io_EOF)
  | (bs, Some e) :: _ => (bs, e)
  | (bs, None) :: r' =>
      if (0 <? length bs)%nat then
        let (d, e) := delivered r' 0 in (bs ++ d, e)
      else if (bufio.maxConsecutiveEmptyReads <? S loop)%nat then ([], io_ErrNoProgress)
      else delivered r' (S loop)
  end.

(** What is left of the stream for a scanner in a given state. *)
Definition stream_of (s : bufio.Scanner) : list Z * error :=
  match bufio.s_err s with
  | Some e => (bufio.s_buf s, e)
  | None => let (d, e) := delivered (bufio.s_r s) 0 in (bufio.s_buf s ++ d, e)
  end.

(** The error [copyRunesWithPatience] returns for a stream that ended
    with [e]. *)
Definition final (e : error) : option error :=
  match e with io_EOF => None | _ => Some e end.

(** ** Rune by rune decoding *)

(** The first character of [data]: its rune, the bytes that stand for it
    in the output and the number of bytes of [data] it takes.  A byte that
    starts no valid encoding is one character, U+FFFD, and stands as the
    encoding of U+FFFD. *)
Definition next (data : list Z) : option (rune * list Z * nat) :=
  match data with
  | [] => None
  | b :: _ =>
      let (r, size) := utf8.DecodeRune data in
      if (0x80 <=? b) && (size <=? 1)%nat
      then Some (RuneError, [0xEF; 0xBF; 0xBD], 1%nat)
      else Some (r, firstn size data, size)
  end.

Fixpoint chars (fuel : nat) (data : list Z) : list (rune * list Z) :=
  match fuel with
  | O => []
  | S fuel' =>
      match next data with
      | None => []
      | Some (r, token, advance) => (r, token) :: chars fuel' (skipn advance data)
      end
  end.

(** The characters of a byte sequence, each with its output bytes. *)
Definition decoded (data : list Z) : list (rune * list Z) := chars (length data) data.

(** ** Runs of the copy loop *)

Definition never_fails (dst : Writer) : Prop := forall w p, w_write dst w p = None.

Definition is_print (e : event) : bool :=
  match e with EvFprintf _ _ _ => true | _ => false end.

Definition is_flush_event (e : event) : bool :=
  match e with EvFlush _ | EvFlushErr _ | EvSync _ => true | _ => false end.

(** A delay function that does nothing to the world but print. *)
Definition only_prints (p : patience) : Prop :=
  forall r w, exists evs, snd (p r w) = w ++ evs /\ forallb is_print evs = true.

(** The byte slices handed to [Write], in order. *)
Definition writes_of (evs : list event) : list (list Z) :=
  flat_map (fun e => match e with EvWrite _ p _ => [p] | _ => [] end) evs.

(** The bytes that successful [Write] calls put on the writer called
    [nm]. *)
Definition copied_to (nm : string) (evs : list event) : list Z :=
  flat_map (fun e => match e with
                     | EvWrite w p None => if String.eqb w nm then p else []
                     | _ => []
                     end) evs.

(** The records printed on the writer called [nm]. *)
Definition printed_to (nm : string) (evs : list event) : list (list arg) :=
  flat_map (fun e => match e with
                     | EvFprintf w _ args => if String.eqb w nm then [args] else []
                     | _ => []
                     end) evs.

(** The delays slept, in order. *)
Definition sleeps_of (evs : list event) : list Duration :=
  flat_map (fun e => match e with EvSleep d => [d] | _ => [] end) evs.

(** The calls one use of the flush action makes. *)
Definition flush_events (dst : Writer) : list event := snd (makeFlush dst []).

(** What a run does for one character when nothing fails and the delay
    function is [f]. *)
Definition block (dst : Writer) (f : rune -> Duration) (c : rune * list Z) : list event :=
  EvWrite (w_name dst) (snd c) None :: flush_events dst ++ [EvSleep (f (fst c))].

(** The flush action as the specification words it: a [Flush] that may
    fail first, then a [Flush] that cannot, then [Sync], else nothing. *)
Definition makeFlush_by_priority (w : Writer) : M unit :=
  if is_safeFlusher w then emit (EvFlushErr (w_name w))
  else if is_flusher w then emit (EvFlush (w_name w))
  else if is_syncer w then emit (EvSync (w_name w))
  else ret tt.

Section Run.

Variable dst : Writer.
Variable flush : M unit.
Variable patience_ : patience.

Local Open Scope go_scope.

(** The loop over the characters of the stream rather than over the
    scanner. *)
Fixpoint run_chars (cs : list (rune * list Z)) : M (option error) :=
  match cs with
  | [] => ret None
  | (r, token) :: cs' =>
      delay <- patience_ r ;;
      err <- Write dst token ;;
      match err with
      | Some e => ret (Some e)
      | None => flush ;;; Sleep delay ;;; run_chars cs'
      end
  end.

End Run.

(** The shape of the log of a run over the characters [cs]. *)
Inductive copy_log (dst : Writer) : list (rune * list Z) -> option error -> list event -> Prop :=
| log_done : copy_log dst [] None []
| log_fail r token cs prints e :
    forallb is_print prints = true ->
    copy_log dst ((r, token) :: cs) (Some e)
      (prints ++ [EvWrite (w_name dst) token (Some e)])
| log_step r token cs prints delay res evs :
    forallb is_print prints = true ->
    copy_log dst cs res evs ->
    copy_log dst ((r, token) :: cs) res
      (prints ++ EvWrite (w_name dst) token None :: flush_events dst ++ EvSleep delay :: evs).

(** ** Views of the decoder, by cases on the bytes *)

Module utf8_view.
Import utf8.

(** The length and the range of the second byte that a first byte asks
    for. *)
Definition lead (b : Z) : option (nat * Z * Z) :=
  if b <? 0xC2 then None
  else if b <? 0xE0 then Some (2%nat, 0x80, 0xBF)
  else if b =? 0xE0 then Some (3%nat, 0xA0, 0xBF)
  else if b <? 0xED then Some (3%nat, 0x80, 0xBF)
  else if b =? 0xED then Some (3%nat, 0x80, 0x9F)
  else if b <? 0xF0 then Some (3%nat, 0x80, 0xBF)
  else if b =? 0xF0 then Some (4%nat, 0x90, 0xBF)
  else if b <? 0xF4 then Some (4%nat, 0x80, 0xBF)
  else if b =? 0xF4 then Some (4%nat, 0x80, 0x8F)
  else None.

Definition within (lo hi b : Z) : bool := (lo <=? b) && (b <=? hi).

Definition val2 (p0 b1 : Z) : rune :=
  Z.lor (Z.shiftl (Z.land p0 mask2) 6) (Z.land b1 maskx).
Definition val3 (p0 b1 b2 : Z) : rune :=
  Z.lor (Z.lor (Z.shiftl (Z.land p0 mask3) 12) (Z.shiftl (Z.land b1 maskx) 6))
        (Z.land b2 maskx).
Definition val4 (p0 b1 b2 b3 : Z) : rune :=
  Z.lor (Z.lor (Z.lor (Z.shiftl (Z.land p0 mask4) 18) (Z.shiftl (Z.land b1 maskx) 12))
               (Z.shiftl (Z.land b2 maskx) 6))
        (Z.land b3 maskx).

Definition bad : rune * nat := (RuneError, 1%nat).

(** [DecodeRune] by pattern matching. *)
Definition decode (p : list Z) : rune * nat :=
  match p with
  | [] => (RuneError, 0%nat)
  | p0 :: t =>
    if p0 <? 0x80 then (p0, 1%nat)
    else match lead p0 with
    | None => bad
    | Some (sz, lo, hi) =>
      match t with
      | [] => bad
      | b1 :: t1 =>
        if negb (within lo hi b1) then bad
        else if (sz =? 2)%nat then (val2 p0 b1, 2%nat)
        else match t1 with
        | [] => bad
        | b2 :: t2 =>
          if negb (within locb hicb b2) then bad
          else if (sz =? 3)%nat then (val3 p0 b1 b2, 3%nat)
          else match t2 with
          | [] => bad
          | b3 :: _ =>
            if negb (within locb hicb b3) then bad
            else (val4 p0 b1 b2 b3, 4%nat)
          end
        end
      end
    end
  end.

(** [FullRune] by pattern matching. *)
Definition full (p : list Z) : bool :=
  match p with
  | [] => false
  | p0 :: t =>
    if p0 <? 0x80 then true
    else match lead p0 with
    | None => true
    | Some (sz, lo, hi) =>
      if (sz <=? length p)%nat then true
      else match t with
      | [] => false
      | b1 :: t1 =>
        if negb (within lo hi b1) then true
        else match t1 with
        | [] => false
        | b2 :: _ => negb (within locb hicb b2)
        end
      end
    end
  end.

End utf8_view.

(** What one call of [Scan] does, in terms of the rest of the stream [d]
    and the error [e] that ends it. *)
Definition scan_outcome (res : bool * bufio.Scanner) (d : list Z) (e : error) : Prop :=
  match next d with
  | None => fst res = false /\ bufio.s_err (snd res) = Some e
  | Some (_, token, advance) =>
      fst res = true /\ bufio.s_token (snd res) = token /\
      stream_of (snd res) = (skipn advance d, e)
  end.

(** ** Vocabulary of the further properties *)

(** A value of Go's type [byte]. *)
Definition is_byte (b : Z) : Prop := 0 <= b <= 255.

(** The UTF-8 encoding of one valid rune. *)
Definition utf8_char (token : list Z) : Prop :=
  exists r, valid_rune r /\ token = utf8.EncodeRune r.

(** A reader whose reads return the given chunks, one after the other and
    without error, and then [io.EOF]. *)
Definition plain_reads (chunks : list (list Z)) : Reader :=
  map (fun bs => (bs, @None error)) chunks.

(** What [main] does for one character with [-debug]. *)
Definition debug_block (f : rune -> Duration) (c : rune * list Z) : list event :=
  [EvFprintf "os.Stdout" ("%q %U %s" ++ newline)
     [ArgString (string_of_rune (fst c)); ArgRune (fst c); ArgDuration (f (fst c))];
   EvWrite "ioutil.Discard" (snd c) None;
   EvSleep (f (fst c))].

(** What [main] does for one character without [-debug], when the write
    succeeds. *)
Definition stdout_block (f : rune -> Duration) (c : rune * list Z) : list event :=
  [EvWrite "os.Stdout" (snd c) None; EvSync "os.Stdout"; EvSleep (f (fst c))].

(** * Proofs *)

(** ** The model at work *)

Example DecodeRune_euro : utf8.DecodeRune [0xE2; 0x82; 0xAC; 0x41] = (0x20AC, 3%nat).
Proof. reflexivity. Qed.

Example DecodeRune_stray : utf8.DecodeRune [0xFF; 0x41] = (RuneError, 1%nat).
Proof. reflexivity. Qed.

Example DecodeRune_surrogate : utf8.DecodeRune [0xED; 0xA0; 0x80] = (RuneError, 1%nat).
Proof. reflexivity. Qed.

Example DecodeRune_overlong : utf8.DecodeRune [0xC0; 0x80] = (RuneError, 1%nat).
Proof. reflexivity. Qed.

Example DecodeRune_short : utf8.DecodeRune [0xE2; 0x82] = (RuneError, 1%nat).
Proof. reflexivity. Qed.

Example FullRune_short : utf8.FullRune [0xE2; 0x82] = false.
Proof. reflexivity. Qed.

Example FullRune_broken : utf8.FullRune [0xE2; 0x41] = true.
Proof. reflexivity. Qed.

Example EncodeRune_euro : utf8.EncodeRune 0x20AC = [0xE2; 0x82; 0xAC].
Proof. reflexivity. Qed.

Example EncodeRune_surrogate : utf8.EncodeRune 0xD800 = [0xEF; 0xBF; 0xBD].
Proof. reflexivity. Qed.

Example ScanRunes_waits : bufio.ScanRunes [0xE2; 0x82] false = (0%nat, None).
Proof. reflexivity. Qed.

Example ScanRunes_replaces : bufio.ScanRunes [0xE2; 0x82] true = (1%nat, Some [0xEF; 0xBF; 0xBD]).
Proof. reflexivity. Qed.

(** "AB" with all delays zero: the copy is lossless. *)
Example copy_AB :
  exists delay, bePatient 3 0 0 = Ok delay /\
    copyRunesWithPatience (os_Stdout (fun _ _ => None)) [([0x41; 0x42], None)] delay []
    = (None, [EvWrite "os.Stdout" [0x41] None; EvSync "os.Stdout"; EvSleep 0;
              EvWrite "os.Stdout" [0x42] None; EvSync "os.Stdout"; EvSleep 0]).
Proof. eexists. split; reflexivity. Qed.

(** A character cut in two by the reader, with a read of nothing in
    between, and a read error after "A". *)
Example copy_cut_character :
  copyRunesWithPatience (mkWriter "w" (fun _ _ => None) (Some FlushPlain) true)
    [([0xE2], None); ([], None); ([0x82; 0xAC; 0x41], Some (Errno "reset"))]
    (fun r => ret r) []
  = (Some (Errno "reset"),
     [EvWrite "w" [0xE2; 0x82; 0xAC] None; EvFlush "w"; EvSleep 0x20AC;
      EvWrite "w" [0x41] None; EvFlush "w"; EvSleep 0x41]).
Proof. reflexivity. Qed.

(** A reader that keeps returning nothing is given up on. *)
Example copy_no_progress :
  copyRunesWithPatience ioutil_Discard
    (repeat ([], None) 101 ++ [([0x41], None)]) (fun r => ret r) []
  = (Some io_ErrNoProgress, []).
Proof. reflexivity. Qed.

Example copy_some_progress :
  copyRunesWithPatience ioutil_Discard
    (repeat ([], None) 100 ++ [([0x41], None)]) (fun r => ret r) []
  = (None, [EvWrite "ioutil.Discard" [0x41] None; EvSleep 0x41]).
Proof. reflexivity. Qed.

Example main_default_A :
  main default_flags [([0x41], None)] (fun _ _ => None) []
  = (exit_ok, [EvWrite "os.Stdout" [0x41] None; EvSync "os.Stdout"; EvSleep 1100000000]).
Proof. reflexivity. Qed.

(** ** Tactics *)

Ltac split_if :=
  match goal with
  | |- context [if ?c then _ else _] => destruct c eqn:?
  end.

Ltac zify_bool :=
  repeat match goal with
  | H : (_ <? _) = true |- _ => apply Z.ltb_lt in H
  | H : (_ <? _) = false |- _ => apply Z.ltb_ge in H
  | H : (_ <=? _) = true |- _ => apply Z.leb_le in H
  | H : (_ <=? _) = false |- _ => apply Z.leb_gt in H
  | H : (_ =? _) = true |- _ => apply Z.eqb_eq in H
  | H : (_ =? _) = false |- _ => apply Z.eqb_neq in H
  | H : (_ || _) = true |- _ => apply orb_true_iff in H; destruct H
  | H : (_ || _) = false |- _ => apply orb_false_iff in H; destruct H
  | H : (_ && _) = true |- _ => apply andb_true_iff in H; destruct H
  | H : (_ && _) = false |- _ => apply andb_false_iff in H; destruct H
  | H : negb _ = true |- _ => apply negb_true_iff in H
  | H : negb _ = false |- _ => apply negb_false_iff in H
  end.

Ltac zdiv := Z.div_mod_to_equations; lia.

Ltac list_eq :=
  repeat match goal with |- _ :: _ = _ :: _ => apply f_equal2 end;
  try reflexivity; zdiv.

Ltac app_norm := repeat first [rewrite <- app_assoc | progress (cbn [app])].

Ltac reuse :=
  repeat match goal with
  | H : ?c = _ |- context [?c] => rewrite H
  end.

(** ** Machine integers *)

Lemma wrap64_small x : in_int64 x -> wrap64 x = x.
Proof.
  unfold in_int64, wrap64, wrap. intros H.
  rewrite Z.mod_small; lia.
Qed.

Lemma wrap64_add_r a b : wrap64 (a + wrap64 b) = wrap64 (a + b).
Proof.
  unfold wrap64, wrap. f_equal.
  replace (a + ((b + 2 ^ (64 - 1)) mod 2 ^ 64 - 2 ^ (64 - 1)) + 2 ^ (64 - 1))
    with (a + (b + 2 ^ (64 - 1)) mod 2 ^ 64) by lia.
  rewrite Z.add_mod_idemp_r by lia. f_equal. lia.
Qed.

Lemma wrap64_eq_iff x y : wrap64 x = wrap64 y <-> (2 ^ 64 | x - y).
Proof.
  unfold wrap64, wrap. split.
  - intros H. apply Z.mod_divide; [lia|].
    assert (E : (x + 2 ^ (64 - 1)) mod 2 ^ 64 = (y + 2 ^ (64 - 1)) mod 2 ^ 64) by lia.
    zdiv.
  - intros [q Hq]. f_equal.
    replace (x + 2 ^ (64 - 1)) with (y + 2 ^ (64 - 1) + q * 2 ^ 64) by lia.
    apply Z.mod_add. lia.
Qed.

Lemma mask_ones bits : 0 <= bits <= 7 ->
  wrap32 (wrap32 (Z.shiftl 1 bits) - 1) = Z.ones bits.
Proof.
  intros H.
  assert (C : bits = 0 \/ bits = 1 \/ bits = 2 \/ bits = 3 \/ bits = 4 \/
              bits = 5 \/ bits = 6 \/ bits = 7) by lia.
  repeat (destruct C as [-> | C]; [reflexivity |]). subst. reflexivity.
Qed.

Lemma shift_mask_ones bits : Z.shiftl 1 bits - 1 = Z.ones bits.
Proof. unfold Z.ones. lia. Qed.

Lemma land_ones_range bits c : 0 <= bits -> 0 <= Z.land (Z.ones bits) c < 2 ^ bits.
Proof.
  intros H. rewrite Z.land_comm, Z.land_ones by assumption.
  apply Z.mod_pos_bound. apply Z.pow_pos_nonneg; lia.
Qed.

Lemma land_ones_small bits k : 0 <= bits -> 0 <= k < 2 ^ bits ->
  Z.land (Z.ones bits) k = k.
Proof.
  intros H K. rewrite Z.land_comm, Z.land_ones by assumption.
  apply Z.mod_small. assumption.
Qed.

(** [bePatient] on a width it accepts. *)
Lemma bePatient_ok bits initial step : 0 <= bits <= 7 ->
  bePatient bits initial step =
  Ok (fun b => ret (dur_add initial (dur_mul step (Z.land (Z.ones bits) b)))).
Proof.
  intros H. unfold bePatient.
  destruct (8 <=? bits) eqn:E; zify_bool; [lia|].
  cbv zeta. now rewrite mask_ones.
Qed.

Lemma delay_of_ok bits initial step c : 0 <= bits <= 7 ->
  delay_of bits initial step c =
  Some (dur_add initial (dur_mul step (Z.land (Z.ones bits) c))).
Proof. intros H. unfold delay_of. now rewrite bePatient_ok. Qed.

(** ** Bits as arithmetic *)

Lemma land_disjoint hi lo n : 0 <= n -> 0 <= lo < 2 ^ n -> hi mod 2 ^ n = 0 ->
  Z.land hi lo = 0.
Proof.
  intros Hn Hlo Hhi. apply Z.bits_inj'. intros m Hm.
  rewrite Z.land_spec, Z.bits_0.
  destruct (Z.lt_ge_cases m n) as [L | G].
  - replace (Z.testbit hi m) with false; [reflexivity|].
    rewrite <- (Z.mod_pow2_bits_low hi n m) by lia. rewrite Hhi. now rewrite Z.bits_0.
  - replace (Z.testbit lo m) with false; [apply andb_false_r|].
    destruct (Z.eq_dec lo 0) as [-> | NZ]; [now rewrite Z.bits_0|].
    symmetry. apply Z.bits_above_log2; [lia|].
    apply Z.log2_lt_pow2; [lia|].
    apply Z.lt_le_trans with (2 ^ n); [lia|]. apply Z.pow_le_mono_r; lia.
Qed.

Lemma lor_disjoint hi lo n : 0 <= n -> 0 <= lo < 2 ^ n -> hi mod 2 ^ n = 0 ->
  Z.lor hi lo = hi + lo.
Proof.
  intros. pose proof (Z.add_lor_land hi lo) as A.
  rewrite (land_disjoint hi lo n) in A by assumption. lia.
Qed.

Lemma land_low x n : 0 <= n -> Z.land x (2 ^ n - 1) = x mod 2 ^ n.
Proof.
  intros. rewrite <- Z.land_ones by assumption. f_equal.
  rewrite Z.ones_equiv. lia.
Qed.

(** ** Facts about [unicode/utf8] *)

Module utf8_facts.
Import utf8 utf8_view.

Lemma first_ascii b : b < 0x80 -> first b = as_.
Proof. intros. unfold first. destruct (b <? 128) eqn:E; zify_bool; [reflexivity | lia]. Qed.

Lemma first_lead b : 0x80 <= b ->
  match lead b with
  | None => first b = xx
  | Some (sz, lo, hi) =>
      first b < as_ /\ Z.to_nat (Z.land (first b) 7) = sz /\
      acceptRanges (Z.shiftr (first b) 4) = (lo, hi)
  end.
Proof.
  intros Hb. unfold first, lead.
  destruct (b <? 128) eqn:?; zify_bool; [lia|].
  repeat (split_if; [repeat split; reflexivity|]). reflexivity.
Qed.

Lemma lead_range b sz lo hi : lead b = Some (sz, lo, hi) ->
  (2 <= sz <= 4)%nat /\ 0x80 <= lo /\ hi <= 0xBF /\ 0xC2 <= b <= 0xF4.
Proof.
  unfold lead.
  repeat (split_if;
          [intros H; first [discriminate H | injection H as <- <- <-; zify_bool; lia]|]).
  discriminate.
Qed.

Lemma lead2 b : 0xC2 <= b <= 0xDF -> lead b = Some (2%nat, 0x80, 0xBF).
Proof. intros. unfold lead. repeat (split_if; zify_bool; try lia; try reflexivity). Qed.

Lemma lead3 b : 0xE0 <= b <= 0xEF ->
  lead b = Some (3%nat, if b =? 0xE0 then 0xA0 else 0x80, if b =? 0xED then 0x9F else 0xBF).
Proof. intros. unfold lead. repeat (split_if; zify_bool; try lia; try reflexivity). Qed.

Lemma lead4 b : 0xF0 <= b <= 0xF4 ->
  lead b = Some (4%nat, if b =? 0xF0 then 0x90 else 0x80, if b =? 0xF4 then 0x8F else 0xBF).
Proof. intros. unfold lead. repeat (split_if; zify_bool; try lia; try reflexivity). Qed.

Lemma within_true lo hi b : lo <= b <= hi -> within lo hi b = true.
Proof. intros. unfold within. apply andb_true_iff. split; apply Z.leb_le; lia. Qed.

Lemma within_false lo hi b : 0x80 <= lo -> hi <= 0xBF -> within 0x80 0xBF b = false ->
  within lo hi b = false.
Proof.
  unfold within. intros Hlo Hhi H. zify_bool; apply andb_false_iff;
    [left; apply Z.leb_gt | right; apply Z.leb_gt]; lia.
Qed.

(** The table driven decoder and the decoder by cases agree. *)
Lemma DecodeRune_decode p : DecodeRune p = decode p.
Proof.
  destruct p as [|p0 t]; [reflexivity|].
  unfold DecodeRune, decode. cbn [length Nat.ltb Nat.leb at_ nth].
  destruct (p0 <? 128) eqn:E0; zify_bool.
  - rewrite first_ascii by lia. cbn. now rewrite Z.land_m1_r, Z.lor_0_r.
  - pose proof (first_lead p0 ltac:(lia)) as F.
    destruct (lead p0) as [[[sz lo] hi]|] eqn:L.
    + destruct F as (F1 & F2 & F3). apply lead_range in L.
      destruct (as_ <=? first p0) eqn:?; zify_bool; [lia|].
      rewrite F2, F3. cbn [fst snd]. unfold bad, within, val2, val3, val4, locb, hicb.
      assert (S : sz = 2%nat \/ sz = 3%nat \/ sz = 4%nat) by lia.
      destruct t as [|b1 [|b2 [|b3 t]]]; cbn [length nth];
        destruct S as [-> | [-> | ->]]; cbn [Nat.ltb Nat.leb Nat.eqb];
        repeat (split_if; zify_bool; try reflexivity; try lia); reflexivity.
    + rewrite F. cbn. now rewrite Z.land_0_r.
Qed.

Lemma FullRune_full p : FullRune p = full p.
Proof.
  destruct p as [|p0 t]; [reflexivity|].
  unfold FullRune, full. cbn [length Nat.eqb at_ nth].
  destruct (p0 <? 128) eqn:E0; zify_bool.
  - rewrite first_ascii by lia. reflexivity.
  - pose proof (first_lead p0 ltac:(lia)) as F.
    destruct (lead p0) as [[[sz lo] hi]|] eqn:L.
    + destruct F as (F1 & F2 & F3). apply lead_range in L.
      rewrite F2, F3. cbn [fst snd]. unfold within, locb, hicb.
      assert (S : sz = 2%nat \/ sz = 3%nat \/ sz = 4%nat) by lia.
      destruct t as [|b1 [|b2 [|b3 t]]]; cbn [length nth];
        destruct S as [-> | [-> | ->]]; cbn [Nat.ltb Nat.leb Nat.eqb andb];
        repeat (split_if; zify_bool; try reflexivity; try lia); reflexivity.
    + rewrite F. reflexivity.
Qed.

(** Case analysis on a first byte: its three possible lengths, or none. *)
Ltac lead_cases p0 :=
  let L := fresh "L" in
  let S := fresh "S" in
  destruct (lead p0) as [[[?sz ?lo] ?hi]|] eqn:L;
  [match type of L with
   | _ = Some (?sz, _, _) =>
       assert (S : sz = 2%nat \/ sz = 3%nat \/ sz = 4%nat)
         by (apply lead_range in L; lia);
       destruct S as [-> | [-> | ->]]
   end|].

Ltac grind :=
  cbn [Nat.ltb Nat.leb Nat.eqb andb orb negb fst snd length app bad] in *;
  repeat (first [split_if | match goal with
                            | H : context [if ?c then _ else _] |- _ => destruct c eqn:?
                            end];
          cbn [Nat.ltb Nat.leb Nat.eqb andb orb negb fst snd length app bad] in *);
  try reflexivity; try discriminate; try lia.

Lemma decode_size p :
  (snd (decode p) <= length p)%nat /\ (p <> [] -> 1 <= snd (decode p))%nat.
Proof.
  destruct p as [|p0 [|b1 [|b2 [|b3 t]]]]; cbn [decode];
    try (split; [cbn; lia | congruence]);
    (destruct (p0 <? 128); [cbn; split; intros; lia|]); lead_cases p0;
    grind; split; intros; cbn; lia.
Qed.

(** A decoded character does not depend on what follows it. *)
Lemma decode_app p q : (1 < snd (decode p))%nat -> decode (p ++ q) = decode p.
Proof.
  destruct p as [|p0 [|b1 [|b2 [|b3 t]]]]; cbn [decode app];
    try (cbn; lia);
    (destruct (p0 <? 128); [cbn; lia|]); lead_cases p0; grind.
Qed.

Lemma decode_firstn p r n : decode p = (r, n) -> (1 < n)%nat ->
  decode (firstn n p) = (r, n).
Proof.
  destruct p as [|p0 [|b1 [|b2 [|b3 t]]]]; cbn [decode app];
    try (intros [= <- <-]; lia);
    (destruct (p0 <? 128) eqn:?; [intros [= <- <-]; lia|]); lead_cases p0; grind;
    intros [= <- <-] ?; try lia; cbn [firstn decode]; reuse; grind.
Qed.

(** Bytes that are known not to start a character stay so when more
    input arrives. *)
Lemma full_app p q : p <> [] -> full p = true -> (snd (decode p) <= 1)%nat ->
  (snd (decode (p ++ q)) <= 1)%nat /\ full (p ++ q) = true.
Proof.
  destruct p as [|p0 [|b1 [|b2 [|b3 t]]]]; [congruence|..]; intros _;
    cbn [decode full app]; (destruct (p0 <? 128); [cbn; auto|]);
    lead_cases p0; destruct q as [|q0 [|q1 [|q2 q]]]; grind; auto;
    intros; grind; auto.
Qed.

(** Nor do they when the input goes on with a byte that continues no
    character. *)
Lemma decode_boundary p x0 x : p <> [] -> within 0x80 0xBF x0 = false ->
  (snd (decode p) <= 1)%nat -> (snd (decode (p ++ x0 :: x)) <= 1)%nat.
Proof.
  intros NE X.
  assert (W : forall lo hi b, lead b = Some (3%nat, lo, hi) \/ lead b = Some (4%nat, lo, hi)
                \/ lead b = Some (2%nat, lo, hi) -> within lo hi x0 = false).
  { intros lo hi b [L | [L | L]]; apply lead_range in L;
      apply within_false; try assumption; lia. }
  destruct p as [|p0 [|b1 [|b2 [|b3 t]]]]; [congruence|..];
    cbn [decode app]; (destruct (p0 <? 128); [cbn; auto|]);
    lead_cases p0; unfold locb, hicb;
    try rewrite X;
    try (erewrite W by eauto);
    grind.
Qed.

End utf8_facts.

(** ** Encoding and decoding a rune *)

Module utf8_roundtrip.
Import utf8 utf8_view utf8_facts.

Lemma tx_lor x : 0 <= x < 64 -> Z.lor tx x = 0x80 + x.
Proof. intros. apply (lor_disjoint _ _ 6); [lia | lia | reflexivity]. Qed.
Lemma t2_lor x : 0 <= x < 32 -> Z.lor t2 x = 0xC0 + x.
Proof. intros. apply (lor_disjoint _ _ 5); [lia | lia | reflexivity]. Qed.
Lemma t3_lor x : 0 <= x < 16 -> Z.lor t3 x = 0xE0 + x.
Proof. intros. apply (lor_disjoint _ _ 4); [lia | lia | reflexivity]. Qed.
Lemma t4_lor x : 0 <= x < 8 -> Z.lor t4 x = 0xF0 + x.
Proof. intros. apply (lor_disjoint _ _ 3); [lia | lia | reflexivity]. Qed.

Lemma maskx_land x : Z.land x maskx = x mod 64.
Proof. apply (land_low x 6). lia. Qed.
Lemma mask2_land x : Z.land x mask2 = x mod 32.
Proof. apply (land_low x 5). lia. Qed.
Lemma mask3_land x : Z.land x mask3 = x mod 16.
Proof. apply (land_low x 4). lia. Qed.
Lemma mask4_land x : Z.land x mask4 = x mod 8.
Proof. apply (land_low x 3). lia. Qed.

Lemma join2 a b : 0 <= b < 64 -> Z.lor (Z.shiftl a 6) b = a * 64 + b.
Proof.
  intros. rewrite Z.shiftl_mul_pow2 by lia.
  apply (lor_disjoint _ _ 6); [lia | lia | apply Z.mod_mul; lia].
Qed.

Lemma join3 a b c : 0 <= b < 64 -> 0 <= c < 64 ->
  Z.lor (Z.lor (Z.shiftl a 12) (Z.shiftl b 6)) c = a * 4096 + b * 64 + c.
Proof.
  intros. rewrite !Z.shiftl_mul_pow2 by lia.
  rewrite (lor_disjoint (a * 2 ^ 12) (b * 2 ^ 6) 12);
    [| lia | lia | apply Z.mod_mul; lia].
  rewrite (lor_disjoint _ c 6); [lia | lia | lia |].
  replace (a * 2 ^ 12 + b * 2 ^ 6) with ((a * 64 + b) * 2 ^ 6) by lia.
  apply Z.mod_mul; lia.
Qed.

Lemma join4 a b c d : 0 <= b < 64 -> 0 <= c < 64 -> 0 <= d < 64 ->
  Z.lor (Z.lor (Z.lor (Z.shiftl a 18) (Z.shiftl b 12)) (Z.shiftl c 6)) d
  = a * 262144 + b * 4096 + c * 64 + d.
Proof.
  intros. rewrite !Z.shiftl_mul_pow2 by lia.
  rewrite (lor_disjoint (a * 2 ^ 18) (b * 2 ^ 12) 18);
    [| lia | lia | apply Z.mod_mul; lia].
  rewrite (lor_disjoint _ (c * 2 ^ 6) 12); [| lia | lia |].
  2:{ replace (a * 2 ^ 18 + b * 2 ^ 12) with ((a * 64 + b) * 2 ^ 12) by lia.
      apply Z.mod_mul; lia. }
  rewrite (lor_disjoint _ d 6); [lia | lia | lia |].
  replace (a * 2 ^ 18 + b * 2 ^ 12 + c * 2 ^ 6)
    with ((a * 4096 + b * 64 + c) * 2 ^ 6) by lia.
  apply Z.mod_mul; lia.
Qed.

(** The bytes of the four lengths of encoding. *)
Lemma encode1 r : 0 <= r <= 0x7F -> EncodeRune r = [r].
Proof.
  intros H. unfold EncodeRune, rune1Max, byte.
  rewrite (Z.mod_small r (2 ^ 32)) by lia.
  destruct (r <=? 127) eqn:E; zify_bool; [|lia].
  now rewrite Z.mod_small by lia.
Qed.

Lemma encode2 r : 0x80 <= r <= 0x7FF ->
  EncodeRune r = [0xC0 + r / 64; 0x80 + r mod 64].
Proof.
  intros H. unfold EncodeRune, rune1Max, rune2Max, byte.
  rewrite (Z.mod_small r (2 ^ 32)) by lia.
  destruct (r <=? 127) eqn:E1; zify_bool; [lia|].
  destruct (r <=? 2047) eqn:E2; zify_bool; [|lia].
  rewrite maskx_land, Z.shiftr_div_pow2 by lia.
  rewrite t2_lor, tx_lor by zdiv.
  list_eq.
Qed.

Lemma encode3 r : 0x800 <= r <= 0xFFFF -> ~ (surrogateMin <= r <= surrogateMax) ->
  EncodeRune r = [0xE0 + r / 4096; 0x80 + (r / 64) mod 64; 0x80 + r mod 64].
Proof.
  intros H S. unfold surrogateMin, surrogateMax in S.
  unfold EncodeRune, rune1Max, rune2Max, rune3Max, MaxRune, surrogateMin, surrogateMax, byte.
  rewrite (Z.mod_small r (2 ^ 32)) by lia.
  destruct (r <=? 127) eqn:E1; zify_bool; [lia|].
  destruct (r <=? 2047) eqn:E2; zify_bool; [lia|].
  destruct ((1114111 <? r) || ((55296 <=? r) && (r <=? 57343))) eqn:E3; zify_bool; try lia.
  all: destruct (r <=? 65535) eqn:E4; zify_bool; try lia.
  all: rewrite !maskx_land, !Z.shiftr_div_pow2 by lia.
  all: rewrite t3_lor, !tx_lor by zdiv.
  all: list_eq.
Qed.

Lemma encode4 r : 0x10000 <= r <= MaxRune ->
  EncodeRune r = [0xF0 + r / 262144; 0x80 + (r / 4096) mod 64;
                  0x80 + (r / 64) mod 64; 0x80 + r mod 64].
Proof.
  intros H. unfold MaxRune in H.
  unfold EncodeRune, rune1Max, rune2Max, rune3Max, MaxRune, surrogateMin, surrogateMax, byte.
  rewrite (Z.mod_small r (2 ^ 32)) by lia.
  destruct (r <=? 127) eqn:E1; zify_bool; [lia|].
  destruct (r <=? 2047) eqn:E2; zify_bool; [lia|].
  destruct ((1114111 <? r) || ((55296 <=? r) && (r <=? 57343))) eqn:E3; zify_bool; try lia.
  all: destruct (r <=? 65535) eqn:E4; zify_bool; try lia.
  all: rewrite !maskx_land, !Z.shiftr_div_pow2 by lia.
  all: rewrite t4_lor, !tx_lor by zdiv.
  all: list_eq.
Qed.

(** Decoding what [EncodeRune] wrote gives the rune back, whatever
    follows. *)
Lemma decode_encode r q : valid_rune r ->
  decode (EncodeRune r ++ q) = (r, length (EncodeRune r)).
Proof.
  intros [R S]. unfold MaxRune in R. unfold surrogateMin, surrogateMax in S.
  destruct (Z_le_gt_dec r 0x7F) as [H1 | H1];
    [|destruct (Z_le_gt_dec r 0x7FF) as [H2 | H2];
      [|destruct (Z_le_gt_dec r 0xFFFF) as [H3 | H3]]].
  - rewrite encode1 by lia. cbn [app decode length].
    destruct (r <? 128) eqn:E; zify_bool; [reflexivity | lia].
  - rewrite encode2 by lia. cbn [app decode length].
    destruct (_ <? 128) eqn:E; zify_bool; [zdiv|].
    rewrite lead2 by zdiv. rewrite within_true by zdiv. cbn [negb Nat.eqb].
    unfold val2. rewrite mask2_land, maskx_land, join2 by zdiv. f_equal. zdiv.
  - rewrite encode3 by (unfold surrogateMin, surrogateMax; lia). cbn [app decode length].
    destruct (_ <? 128) eqn:E; zify_bool; [zdiv|].
    rewrite lead3 by zdiv. rewrite within_true.
    2:{ repeat split_if; zify_bool; zdiv. }
    unfold locb, hicb. rewrite within_true by zdiv. cbn [negb Nat.eqb].
    unfold val3. rewrite mask3_land, !maskx_land, join3 by zdiv. f_equal. zdiv.
  - rewrite encode4 by (unfold MaxRune; lia). cbn [app decode length].
    destruct (_ <? 128) eqn:E; zify_bool; [zdiv|].
    rewrite lead4 by zdiv. rewrite within_true.
    2:{ repeat split_if; zify_bool; zdiv. }
    unfold locb, hicb. rewrite !within_true by zdiv. cbn [negb Nat.eqb].
    unfold val4. rewrite mask4_land, !maskx_land, join4 by zdiv. f_equal. zdiv.
Qed.

(** An encoding of several bytes starts with a byte that continues no
    character. *)
Lemma encode_head r : valid_rune r -> 0x80 <= r ->
  exists b t, EncodeRune r = b :: t /\ 0xC2 <= b <= 0xF4 /\
              (1 < length (EncodeRune r))%nat.
Proof.
  intros [R S] H. unfold MaxRune in R. unfold surrogateMin, surrogateMax in S.
  destruct (Z_le_gt_dec r 0x7FF) as [H2 | H2];
      [|destruct (Z_le_gt_dec r 0xFFFF) as [H3 | H3]].
  - rewrite encode2 by lia. do 2 eexists. split; [reflexivity|].
    cbn [length]. split; [zdiv | lia].
  - rewrite encode3 by (unfold surrogateMin, surrogateMax; lia).
    do 2 eexists. split; [reflexivity|]. cbn [length]. split; [zdiv | lia].
  - rewrite encode4 by (unfold MaxRune; lia).
    do 2 eexists. split; [reflexivity|]. cbn [length]. split; [zdiv | lia].
Qed.

Lemma encode_nonempty r : valid_rune r -> EncodeRune r <> [].
Proof.
  intros V. destruct (Z_lt_ge_dec r 0x80) as [L | G].
  - destruct V as [[? ?] _]. rewrite encode1 by lia. discriminate.
  - destruct (encode_head r V ltac:(lia)) as (b & t & E & _). rewrite E. discriminate.
Qed.

End utf8_roundtrip.

(** ** Facts about [bufio.ScanRunes] and [bufio.Scanner] *)

Module bufio_facts.
Import bufio utf8_view utf8_facts.

Lemma errorRune_bytes : errorRune = [0xEF; 0xBF; 0xBD].
Proof. reflexivity. Qed.

(** At the end of the input [ScanRunes] cuts off the next character. *)
Lemma ScanRunes_eof data :
  ScanRunes data true =
  match next data with
  | None => (0%nat, None)
  | Some (_, token, advance) => (advance, Some token)
  end.
Proof.
  destruct data as [|b t]; [reflexivity|].
  unfold ScanRunes, next. cbn [length Nat.eqb andb utf8.at_ nth negb].
  rewrite DecodeRune_decode, errorRune_bytes.
  pose proof (decode_size (b :: t)) as [_ Hs]. specialize (Hs ltac:(discriminate)).
  destruct (decode (b :: t)) as [r size] eqn:D. cbn [snd] in *.
  unfold utf8.RuneSelf.
  destruct (b <? 128) eqn:E; zify_bool.
  - destruct (128 <=? b) eqn:E'; zify_bool; [lia|]. cbn [andb].
    cbn [decode] in D. destruct (b <? 128) eqn:E2; zify_bool; [|lia].
    now injection D as <- <-.
  - destruct (128 <=? b) eqn:E'; zify_bool; [|lia]. cbn [andb].
    destruct (1 <? size)%nat eqn:W, (size <=? 1)%nat eqn:W'; try reflexivity;
      apply Nat.ltb_lt in W || apply Nat.ltb_ge in W;
      apply Nat.leb_le in W' || apply Nat.leb_gt in W'; lia.
Qed.

Lemma next_size data r token advance : next data = Some (r, token, advance) ->
  (1 <= advance <= length data)%nat.
Proof.
  destruct data as [|b t]; [discriminate|]. unfold next.
  rewrite DecodeRune_decode.
  pose proof (decode_size (b :: t)) as [Hl Hs]. specialize (Hs ltac:(discriminate)).
  destruct (decode (b :: t)) as [r' size]. cbn [snd] in *.
  destruct (_ && _); intros [= <- <- <-]; cbn [length] in *; lia.
Qed.

(** A token is one rune: decoding it again, as the loop of
    [copyRunesWithPatience] does, takes all of it. *)
Lemma next_token data r token advance : next data = Some (r, token, advance) ->
  token <> [] /\ utf8.DecodeRune token = (r, length token).
Proof.
  destruct data as [|b t]; [discriminate|]. unfold next.
  rewrite !DecodeRune_decode.
  pose proof (decode_size (b :: t)) as [Hl Hs]. specialize (Hs ltac:(discriminate)).
  destruct (decode (b :: t)) as [r' size] eqn:D. cbn [snd] in *.
  destruct (_ && _) eqn:C; intros [= <- <- <-].
  - split; [discriminate | reflexivity].
  - split.
    + destruct size; [lia | discriminate].
    + rewrite length_firstn, Nat.min_l by assumption.
      destruct (Nat.eq_dec size 1) as [-> | N].
      * zify_bool; [|apply Nat.leb_gt in H; lia].
        cbn [decode] in D. destruct (b <? 128) eqn:E; zify_bool; [|lia].
        injection D as <-. cbn [firstn decode].
        destruct (b <? 128) eqn:E'; zify_bool; [reflexivity | lia].
      * apply decode_firstn; [assumption | lia].
Qed.

(** A token cut off before the end of the input is the one that would be
    cut off with all of the input at hand. *)
Lemma ScanRunes_more data advance token q b :
  data <> [] -> ScanRunes data false = (advance, Some token) ->
  ScanRunes (data ++ q) b = (advance, Some token) /\ (1 <= advance <= length data)%nat.
Proof.
  destruct data as [|b0 t]; [congruence|]. intros _.
  unfold ScanRunes. rewrite !DecodeRune_decode, !FullRune_full.
  cbn [andb negb app length Nat.eqb utf8.at_ nth]. rewrite andb_false_r.
  change (b0 :: t ++ q) with ((b0 :: t) ++ q).
  destruct (b0 <? utf8.RuneSelf).
  { intros [= <- <-]. cbn [length]. split; [reflexivity | lia]. }
  pose proof (decode_size (b0 :: t)) as [Hl _].
  pose proof (decode_app (b0 :: t) q) as A.
  pose proof (full_app (b0 :: t) q ltac:(discriminate)) as FA.
  destruct (decode (b0 :: t)) as [r0 w0], (decode ((b0 :: t) ++ q)) as [r1 w1].
  cbn [snd] in *.
  destruct (1 <? w0)%nat eqn:W.
  - apply Nat.ltb_lt in W. specialize (A W). injection A as -> ->.
    intros [= <- <-]. apply Nat.ltb_lt in W as W'. rewrite W'.
    rewrite firstn_app.
    replace (w0 - length (b0 :: t))%nat with 0%nat by lia.
    rewrite firstn_O, app_nil_r. cbn [length] in *. split; [reflexivity | lia].
  - apply Nat.ltb_ge in W.
    destruct (full (b0 :: t)) eqn:F; cbn [negb]; [|discriminate].
    intros [= <- <-].
    destruct (FA eq_refl W) as [W' F'].
    apply Nat.ltb_ge in W'. rewrite W', F'. rewrite andb_false_r.
    cbn [length]. split; [reflexivity | lia].
Qed.

Lemma next_of_ScanRunes d advance token :
  ScanRunes d true = (advance, Some token) ->
  exists r, next d = Some (r, token, advance).
Proof.
  rewrite ScanRunes_eof. destruct (next d) as [[[r ?] ?]|]; [|discriminate].
  intros [= <- <-]. now exists r.
Qed.

Lemma scan_at_end_spec r buf e :
  scan_at_end r buf e =
  match next buf with
  | None => (false, mkScanner r [] (Some e) [])
  | Some (_, token, advance) => (true, mkScanner r (skipn advance buf) (Some e) token)
  end.
Proof.
  unfold scan_at_end. rewrite ScanRunes_eof.
  destruct (next buf) as [[[? ?] ?]|]; reflexivity.
Qed.

Lemma scan_outcome_end r buf e : scan_outcome (scan_at_end r buf e) buf e.
Proof.
  unfold scan_outcome. rewrite scan_at_end_spec.
  destruct (next buf) as [[[? ?] ?]|]; cbn; auto.
Qed.

(** Reading until a token can be cut off: however the reader splits the
    stream into reads, the token is the next character of the stream. *)
Lemma scan_read_spec r : forall buf loop,
  buf = [] \/ snd (ScanRunes buf false) = None ->
  scan_outcome (scan_read r buf loop)
    (buf ++ fst (delivered r loop)) (snd (delivered r loop)).
Proof.
  induction r as [|[bs [e|]] r IH]; intros buf loop U; cbn [scan_read delivered fst snd].
  - rewrite app_nil_r. apply scan_outcome_end.
  - apply scan_outcome_end.
  - destruct (0 <? length bs)%nat eqn:N.
    + destruct (delivered r 0) as [d e] eqn:D. cbn [fst snd].
      assert (NE : buf ++ bs <> []).
      { destruct bs; [discriminate|]. destruct buf; discriminate. }
      destruct (ScanRunes (buf ++ bs) false) as [advance [token|]] eqn:S.
      * destruct (ScanRunes_more _ _ _ d true NE S) as [S' L].
        rewrite <- app_assoc in S'. apply next_of_ScanRunes in S' as [r0 S'].
        unfold scan_outcome. rewrite S'. cbn [fst snd s_token].
        repeat split. unfold stream_of. cbn [s_err s_r s_buf]. rewrite D.
        rewrite (app_assoc buf bs d), (skipn_app advance (buf ++ bs) d).
        replace (advance - length (buf ++ bs))%nat with 0%nat by lia.
        reflexivity.
      * specialize (IH (buf ++ bs) 0%nat). rewrite D, S in IH. cbn [fst snd] in IH.
        rewrite app_assoc. apply IH. now right.
    + destruct (maxConsecutiveEmptyReads <? S loop)%nat.
      * cbn [fst snd]. rewrite app_nil_r. apply scan_outcome_end.
      * apply IH, U.
Qed.

Lemma Scan_spec s :
  scan_outcome (Scan s) (fst (stream_of s)) (snd (stream_of s)).
Proof.
  destruct s as [r buf [e|] tok]; unfold Scan, stream_of; cbn [s_err s_buf s_r is_set].
  - rewrite orb_true_r. cbn [fst snd]. unfold scan_outcome. rewrite ScanRunes_eof.
    destruct (next buf) as [[[? ?] ?]|]; cbn; auto.
  - rewrite orb_false_r.
    destruct (delivered r 0) as [d e] eqn:D. cbn [fst snd].
    pose proof (scan_read_spec r buf 0) as R. rewrite D in R. cbn [fst snd] in R.
    destruct (0 <? length buf)%nat eqn:N.
    + assert (NE : buf <> []) by (destruct buf; [discriminate | discriminate]).
      destruct (ScanRunes buf false) as [advance [token|]] eqn:S.
      * destruct (ScanRunes_more _ _ _ d true NE S) as [S' L].
        apply next_of_ScanRunes in S' as [r0 S'].
        unfold scan_outcome. rewrite S'. cbn [fst snd s_token].
        repeat split. unfold stream_of. cbn [s_err s_r s_buf]. rewrite D.
        rewrite skipn_app.
        replace (advance - length buf)%nat with 0%nat by lia. reflexivity.
      * apply R. now right.
    + apply R. left. destruct buf; [reflexivity | discriminate].
Qed.

Lemma Err_final s e : s_err s = Some e -> Err s = final e.
Proof. unfold Err. intros ->. destruct e; reflexivity. Qed.

Lemma delivered_length r : forall loop,
  (length (fst (delivered r loop)) <= pending r)%nat.
Proof.
  unfold pending. induction r as [|[bs [e|]] r IH]; intros loop; cbn [delivered map concat fst].
  - cbn. lia.
  - cbn [fst]. rewrite length_app. lia.
  - rewrite length_app. destruct (0 <? length bs)%nat.
    + specialize (IH 0%nat). destruct (delivered r 0). cbn [fst] in *.
      rewrite length_app. lia.
    + destruct (_ <? _)%nat; [cbn; lia|]. specialize (IH (S loop)). lia.
Qed.

End bufio_facts.

(** ** Facts about rune by rune decoding *)

Module decoded_facts.
Import utf8_view utf8_facts utf8_roundtrip bufio_facts.

Lemma chars_fuel n m : forall d, (length d <= n)%nat -> (length d <= m)%nat ->
  chars n d = chars m d.
Proof.
  revert m. induction n as [|n IH]; intros m d Hn Hm.
  - destruct d; [|cbn in Hn; lia]. destruct m; reflexivity.
  - destruct m as [|m].
    + destruct d; [reflexivity | cbn in Hm; lia].
    + cbn [chars]. destruct (next d) as [[[r token] advance]|] eqn:N; [|reflexivity].
      apply next_size in N. f_equal. apply IH; rewrite length_skipn; lia.
Qed.

Lemma decoded_nil : decoded [] = [].
Proof. reflexivity. Qed.

Lemma decoded_cons d r token advance : next d = Some (r, token, advance) ->
  decoded d = (r, token) :: decoded (skipn advance d).
Proof.
  intros N. pose proof (next_size _ _ _ _ N) as L. unfold decoded.
  destruct (length d) as [|n] eqn:E; [lia|]. cbn [chars]. rewrite N. f_equal.
  apply chars_fuel; rewrite length_skipn; lia.
Qed.

Lemma next_some d : d <> [] -> exists r token advance, next d = Some (r, token, advance).
Proof.
  destruct d as [|b t]; [congruence|]. intros _. unfold next.
  destruct (utf8.DecodeRune (b :: t)) as [r size]. destruct (_ && _); eauto.
Qed.

Lemma next_encode r q : valid_rune r ->
  next (utf8.EncodeRune r ++ q) =
  Some (r, utf8.EncodeRune r, length (utf8.EncodeRune r)).
Proof.
  intros V. pose proof (decode_encode r q V) as D.
  pose proof (encode_nonempty r V) as NE.
  destruct (utf8.EncodeRune r) as [|b t] eqn:E; [congruence|].
  unfold next. cbn [app]. change (b :: t ++ q) with ((b :: t) ++ q).
  rewrite DecodeRune_decode, D.
  assert (T : (128 <=? b) && (length (b :: t) <=? 1)%nat = false).
  { destruct (Z_lt_ge_dec r 0x80) as [Lt | Ge].
    - destruct V as [[? ?] _]. rewrite encode1 in E by lia. injection E as <- <-.
      apply andb_false_iff. left. apply Z.leb_gt. lia.
    - destruct (encode_head r V ltac:(lia)) as (b' & t' & E' & _ & L).
      rewrite E in L. apply andb_false_iff. right. apply Nat.leb_gt. lia. }
  rewrite T. rewrite firstn_app, firstn_all, Nat.sub_diag, firstn_O, app_nil_r.
  reflexivity.
Qed.

Lemma decoded_encode r q : valid_rune r ->
  decoded (utf8.EncodeRune r ++ q) = (r, utf8.EncodeRune r) :: decoded q.
Proof.
  intros V. rewrite (decoded_cons _ _ _ _ (next_encode r q V)).
  now rewrite skipn_app, skipn_all, Nat.sub_diag.
Qed.

(** Valid UTF-8 decodes to the characters it encodes. *)
Lemma decoded_text rs : Forall valid_rune rs ->
  decoded (concat (map utf8.EncodeRune rs)) = map (fun r => (r, utf8.EncodeRune r)) rs.
Proof.
  induction 1 as [|r rs V _ IH]; [reflexivity|].
  cbn [map concat]. now rewrite decoded_encode, IH.
Qed.

Lemma next_boundary p x0 x : p <> [] -> within 0x80 0xBF x0 = false ->
  next (p ++ x0 :: x) = next p.
Proof.
  intros NE X. destruct p as [|b t]; [congruence|].
  unfold next. cbn [app]. change (b :: t ++ x0 :: x) with ((b :: t) ++ x0 :: x).
  rewrite !DecodeRune_decode.
  pose proof (decode_size (b :: t)) as [Hl Hs]. specialize (Hs NE).
  pose proof (decode_app (b :: t) (x0 :: x)) as A.
  pose proof (decode_boundary (b :: t) x0 x NE X) as B.
  destruct (Z_lt_ge_dec b 0x80) as [Lt | Ge].
  - cbn [decode app]. destruct (b <? 128) eqn:E; zify_bool; [|lia].
    destruct (128 <=? b) eqn:E'; zify_bool; [lia|]. reflexivity.
  - destruct (128 <=? b) eqn:E'; zify_bool; [|lia]. cbn [andb].
    destruct (decode (b :: t)) as [r size], (decode ((b :: t) ++ x0 :: x)) as [r' size'].
    cbn [snd] in *.
    destruct (size <=? 1)%nat eqn:S.
    + apply Nat.leb_le in S. specialize (B S). apply Nat.leb_le in B. now rewrite B.
    + apply Nat.leb_gt in S. specialize (A S). injection A as -> ->.
      apply Nat.leb_gt in S as S'. rewrite S'.
      rewrite firstn_app. replace (size - length (b :: t))%nat with 0%nat by lia.
      now rewrite firstn_O, app_nil_r.
Qed.

(** Decoding starts afresh at a byte that continues no character. *)
Lemma decoded_boundary x0 x : within 0x80 0xBF x0 = false ->
  forall p, decoded (p ++ x0 :: x) = decoded p ++ decoded (x0 :: x).
Proof.
  intros X p. remember (length p) as n eqn:Hn.
  assert (L : (length p <= n)%nat) by lia. clear Hn. revert p L.
  induction n as [|n IH]; intros p L.
  - destruct p; [reflexivity | cbn in L; lia].
  - destruct p as [|b t]; [reflexivity|].
    destruct (next_some (b :: t) ltac:(discriminate)) as (r & token & advance & N).
    pose proof (next_size _ _ _ _ N) as Sz.
    rewrite (decoded_cons (b :: t) _ _ _ N).
    rewrite (decoded_cons ((b :: t) ++ x0 :: x) r token advance)
      by (rewrite next_boundary; [assumption | discriminate | assumption]).
    rewrite skipn_app. replace (advance - length (b :: t))%nat with 0%nat by lia.
    cbn [skipn app]. f_equal.
    apply IH. rewrite length_skipn. cbn [length] in *. lia.
Qed.

(** A byte that can start no character is replaced. *)
Lemma decoded_invalid b q : 0xC0 <= b -> lead b = None ->
  decoded (b :: q) = (RuneError, [0xEF; 0xBF; 0xBD]) :: decoded q.
Proof.
  intros Hb L.
  assert (N : next (b :: q) = Some (RuneError, [0xEF; 0xBF; 0xBD], 1%nat)).
  { unfold next. rewrite DecodeRune_decode. cbn [decode]. rewrite L.
    destruct (b <? 128) eqn:E; zify_bool; [lia|].
    destruct (128 <=? b) eqn:E'; zify_bool; [|lia]. reflexivity. }
  now rewrite (decoded_cons _ _ _ _ N).
Qed.

Lemma decoded_tokens d : Forall (fun c => snd c <> []) (decoded d).
Proof.
  remember (length d) as n eqn:Hn.
  assert (L : (length d <= n)%nat) by lia. clear Hn. revert d L.
  induction n as [|n IH]; intros d L.
  - destruct d; [constructor | cbn in L; lia].
  - destruct d as [|b t]; [constructor|].
    destruct (next_some (b :: t) ltac:(discriminate)) as (r & token & advance & N).
    rewrite (decoded_cons _ _ _ _ N). constructor.
    + apply (next_token _ _ _ _ N).
    + apply IH. apply next_size in N. rewrite length_skipn. cbn [length] in *. lia.
Qed.

End decoded_facts.

(** ** The copy loop runs over the characters of the stream *)

Module copy_facts.
Import bufio_facts decoded_facts.

Section Loop.

Variable dst : Writer.
Variable flush : M unit.
Variable patience_ : patience.

Local Open Scope go_scope.

(** On a token of [ScanRunes] the inner loop goes round once. *)
Lemma write_runes_token token r w :
  token <> [] -> utf8.DecodeRune token = (r, length token) ->
  write_runes dst flush patience_ (length token) token w =
  (delay <- patience_ r ;;
   err <- Write dst token ;;
   match err with
   | Some e => ret (Return e)
   | None => flush ;;; Sleep delay ;;; ret Next
   end) w.
Proof.
  intros NE D. destruct token as [|b t]; [congruence|].
  cbn [length write_runes Nat.ltb Nat.leb]. rewrite D. cbn [length].
  change (firstn (S (length t)) (b :: t)) with (firstn (length (b :: t)) (b :: t)).
  change (skipn (S (length t)) (b :: t)) with (skipn (length (b :: t)) (b :: t)).
  rewrite firstn_all, skipn_all.
  unfold bind. destruct (patience_ r w) as [delay w1].
  destruct (Write dst (b :: t) w1) as [[e|] w2]; [reflexivity|].
  destruct (flush w2) as [[] w3]. destruct (Sleep delay w3) as [[] w4].
  destruct (length t); reflexivity.
Qed.

(** With fuel for every byte of the stream, the loop over the scanner is
    the loop over the characters, and it ends by itself. *)
Lemma scan_loop_spec fuel : forall s w,
  (length (fst (stream_of s)) <= fuel)%nat ->
  scan_loop dst flush patience_ fuel s w =
  let (res, w') := run_chars dst flush patience_ (chars fuel (fst (stream_of s))) w in
  (Some (match res with Some e => Some e | None => final (snd (stream_of s)) end), w').
Proof.
  induction fuel as [|fuel IH]; intros s w Hf;
    pose proof (Scan_spec s) as SP; unfold scan_outcome in SP;
    destruct (stream_of s) as [d e] eqn:ST; cbn [fst snd] in *.
  - destruct d; [|cbn in Hf; lia]. cbn [next] in SP. destruct SP as [F E].
    cbn [scan_loop chars run_chars]. destruct (bufio.Scan s) as [b s']. cbn [fst snd] in *.
    subst b. unfold ret. now rewrite (Err_final _ _ E).
  - cbn [scan_loop chars].
    destruct (next d) as [[[r token] advance]|] eqn:N.
    + destruct SP as (F & T & ST'). destruct (bufio.Scan s) as [b s']. cbn [fst snd] in *.
      subst b. unfold bufio.Bytes. rewrite T.
      destruct (next_token _ _ _ _ N) as [NE D].
      cbn [run_chars]. unfold bind at 1. rewrite (write_runes_token _ _ _ NE D).
      unfold bind. destruct (patience_ r w) as [delay w1].
      destruct (Write dst token w1) as [[e'|] w2]; [reflexivity|].
      destruct (flush w2) as [[] w3]. destruct (Sleep delay w3) as [[] w4].
      unfold ret. rewrite IH; rewrite ST'; cbn [fst snd].
      * reflexivity.
      * apply next_size in N. rewrite length_skipn. lia.
    + destruct SP as [F E]. destruct (bufio.Scan s) as [b s']. cbn [fst snd] in *.
      subst b. cbn [run_chars]. unfold ret. now rewrite (Err_final _ _ E).
Qed.

End Loop.

Lemma stream_of_new src : stream_of (bufio.NewScanner src) = delivered src 0.
Proof. unfold stream_of, bufio.NewScanner. cbn. now destruct (delivered src 0). Qed.

(** The recursion of the model never cuts a run short. *)
Lemma copy_total dst src patience_ w :
  fst (scan_loop dst (makeFlush dst) patience_ (pending src) (bufio.NewScanner src) w)
  <> None.
Proof.
  rewrite scan_loop_spec by (rewrite stream_of_new; apply delivered_length).
  destruct (run_chars _ _ _ _ w). discriminate.
Qed.

(** [copyRunesWithPatience] in terms of the stream the reader delivers,
    however the reader cuts it into reads. *)
Lemma copy_spec dst src patience_ w :
  copyRunesWithPatience dst src patience_ w =
  let (res, w') :=
    run_chars dst (makeFlush dst) patience_ (decoded (fst (delivered src 0))) w in
  (match res with Some e => Some e | None => final (snd (delivered src 0)) end, w').
Proof.
  unfold copyRunesWithPatience.
  pose proof (delivered_length src 0) as L.
  rewrite scan_loop_spec; rewrite stream_of_new; [|assumption].
  unfold decoded. rewrite (chars_fuel _ (length (fst (delivered src 0)))) by lia.
  destruct (run_chars _ _ _ _ w) as [res w']. reflexivity.
Qed.

(** *** The flush action *)

Lemma makeFlush_run dst w : makeFlush dst w = (tt, w ++ flush_events dst).
Proof.
  unfold flush_events, makeFlush, emit, ret.
  destruct (is_flusher dst), (is_safeFlusher dst), (is_syncer dst);
    cbn; rewrite ?app_nil_r; reflexivity.
Qed.

Lemma flush_events_cases dst :
  flush_events dst = [] \/ exists e, flush_events dst = [e] /\ is_flush_event e = true.
Proof.
  unfold flush_events, makeFlush, emit, ret.
  destruct (is_flusher dst), (is_safeFlusher dst), (is_syncer dst);
    cbn; eauto.
Qed.

Lemma flush_events_flush dst e : In e (flush_events dst) -> is_flush_event e = true.
Proof.
  destruct (flush_events_cases dst) as [-> | (e' & -> & F)]; [intros []|].
  intros [<- | []]. assumption.
Qed.

(** *** The log of a run *)

Lemma run_chars_log dst p : only_prints p -> forall cs w,
  exists res evs,
    run_chars dst (makeFlush dst) p cs w = (res, w ++ evs) /\ copy_log dst cs res evs.
Proof.
  intros P. induction cs as [|[r token] cs IH]; intros w.
  - exists None, []. rewrite app_nil_r. split; [reflexivity | constructor].
  - cbn [run_chars]. unfold bind.
    destruct (P r w) as (prints & Hp & Fp).
    destruct (p r w) as [delay w1]. cbn [snd] in Hp. subst w1.
    unfold Write at 1.
    destruct (w_write dst (w ++ prints) token) as [e|].
    + exists (Some e), (prints ++ [EvWrite (w_name dst) token (Some e)]).
      rewrite app_assoc. split; [reflexivity | now constructor].
    + rewrite makeFlush_run. unfold Sleep, emit.
      match goal with |- context [run_chars _ _ _ cs ?w0] =>
        destruct (IH w0) as (res & evs & R & Lg); rewrite R end.
      exists res,
        (prints ++ EvWrite (w_name dst) token None :: flush_events dst ++ EvSleep delay :: evs).
      split; [|now constructor].
      f_equal. app_norm. reflexivity.
Qed.

Lemma prints_not e prints : forallb is_print prints = true -> In e prints ->
  is_print e = true.
Proof. intros F I. rewrite forallb_forall in F. now apply F. Qed.

(** A failed write is the last thing a run does, and its error is the
    result. *)
Lemma copy_log_failed_write dst cs res evs : copy_log dst cs res evs ->
  forall nm bytes e, In (EvWrite nm bytes (Some e)) evs ->
  res = Some e /\ exists evs0, evs = evs0 ++ [EvWrite nm bytes (Some e)].
Proof.
  induction 1 as [|r token cs prints e0 Fp|r token cs prints delay res evs Fp Lg IH];
    intros nm bytes e I.
  - destruct I.
  - apply in_app_or in I as [I | [I | []]].
    + apply (prints_not _ _ Fp) in I. discriminate.
    + injection I as <- <- <-. split; [reflexivity | now exists prints].
  - apply in_app_or in I as [I | [I | I]].
    + apply (prints_not _ _ Fp) in I. discriminate.
    + discriminate.
    + apply in_app_or in I as [I | [I | I]].
      * apply flush_events_flush in I. discriminate.
      * discriminate.
      * destruct (IH _ _ _ I) as [-> [evs0 ->]]. split; [reflexivity|].
        exists (prints ++ EvWrite (w_name dst) token None
                  :: flush_events dst ++ EvSleep delay :: evs0).
        app_norm. reflexivity.
Qed.

(** Every flush of a run is the action bound at the start. *)
Lemma copy_log_flush dst cs res evs : copy_log dst cs res evs ->
  forall e, In e evs -> is_flush_event e = true -> In e (flush_events dst).
Proof.
  induction 1 as [|r token cs prints e0 Fp|r token cs prints delay res evs Fp Lg IH];
    intros e I F.
  - destruct I.
  - apply in_app_or in I as [I | [I | []]].
    + apply (prints_not _ _ Fp) in I. destruct e; discriminate.
    + subst e. discriminate.
  - apply in_app_or in I as [I | [I | I]].
    + apply (prints_not _ _ Fp) in I. destruct e; discriminate.
    + subst e. discriminate.
    + apply in_app_or in I as [I | [I | I]]; [assumption | subst e; discriminate | eauto].
Qed.

Lemma writes_of_app a b : writes_of (a ++ b) = writes_of a ++ writes_of b.
Proof. apply flat_map_app. Qed.

Lemma writes_of_prints prints : forallb is_print prints = true -> writes_of prints = [].
Proof.
  induction prints as [|e l IH]; [reflexivity|]. cbn [forallb]. intros F.
  apply andb_true_iff in F as [E F]. destruct e; try discriminate. cbn. now apply IH.
Qed.

Lemma writes_of_flush dst : writes_of (flush_events dst) = [].
Proof.
  destruct (flush_events_cases dst) as [-> | (e & -> & F)]; [reflexivity|].
  destruct e; try discriminate; reflexivity.
Qed.

(** Every write of a run is one whole token, in the order of the stream. *)
Lemma copy_log_writes dst cs res evs : copy_log dst cs res evs ->
  (exists k, writes_of evs = firstn k (map snd cs)) /\
  (res = None -> writes_of evs = map snd cs).
Proof.
  induction 1 as [|r token cs prints e0 Fp|r token cs prints delay res evs Fp Lg IH].
  - split; [now exists 0%nat | reflexivity].
  - rewrite writes_of_app, (writes_of_prints _ Fp). split; [now exists 1%nat | discriminate].
  - rewrite writes_of_app, (writes_of_prints _ Fp). cbn [app writes_of flat_map].
    fold (writes_of (flush_events dst ++ EvSleep delay :: evs)).
    rewrite writes_of_app, writes_of_flush. cbn [app writes_of flat_map].
    fold (writes_of evs). destruct IH as [[k Hk] Hn]. split.
    + exists (S k). cbn [map snd firstn]. now rewrite Hk.
    + intros E. cbn [map snd]. now rewrite Hn.
Qed.

Lemma run_chars_never_fails dst flush p : never_fails dst -> forall cs w,
  fst (run_chars dst flush p cs w) = None.
Proof.
  intros NF. induction cs as [|[r token] cs IH]; intros w; [reflexivity|].
  cbn [run_chars]. unfold bind, Write. destruct (p r w) as [delay w1].
  rewrite NF. destruct (flush _) as [[] w3]. unfold Sleep, emit. apply IH.
Qed.

(** The log of a run that meets no error, with a delay function that is
    a function. *)
Lemma run_chars_pure dst p f : never_fails dst -> (forall r w, p r w = (f r, w)) ->
  forall cs w,
    run_chars dst (makeFlush dst) p cs w =
    (None, w ++ flat_map (fun c => EvWrite (w_name dst) (snd c) None
                                     :: flush_events dst ++ [EvSleep (f (fst c))]) cs).
Proof.
  intros NF P. induction cs as [|[r token] cs IH]; intros w.
  - cbn. now rewrite app_nil_r.
  - cbn [run_chars flat_map fst snd]. unfold bind, Write. rewrite P, NF, makeFlush_run.
    unfold Sleep, emit. rewrite IH. f_equal.
    app_norm. reflexivity.
Qed.

(** *** Delay functions that only print *)

Lemma only_prints_ret (f : rune -> Duration) : only_prints (fun b => ret (f b)).
Proof. intros r w. exists []. cbn. now rewrite app_nil_r. Qed.

Lemma only_prints_debug dst f : only_prints f -> only_prints (printImpatiently dst f).
Proof.
  intros P r w. destruct (P r w) as (evs & E & F).
  unfold printImpatiently, bind, Fprintf, emit, ret.
  destruct (f r w) as [delay w1]. cbn [snd] in *. subst w1.
  eexists (evs ++ [_]). rewrite app_assoc. split; [reflexivity|].
  rewrite forallb_app, F. reflexivity.
Qed.

(** The two delay functions of [main] only print. *)
Lemma bePatient_only_prints bits initial step f dst :
  bePatient bits initial step = Ok f ->
  only_prints f /\ only_prints (printImpatiently dst f).
Proof.
  unfold bePatient. destruct (8 <=? bits); [discriminate|]. intros [= <-].
  pose proof (only_prints_ret
    (fun b => dur_add initial
                (dur_mul step (Z.land (wrap32 (wrap32 (Z.shiftl 1 bits) - 1)) b)))) as P.
  split; [exact P | now apply only_prints_debug].
Qed.

End copy_facts.

(** ** Writes and sleeps of a run without errors *)

Module output_facts.
Import copy_facts.

Section Blocks.

Variable dst : Writer.
Variable f : rune -> Duration.

Lemma sleeps_of_app a b : sleeps_of (a ++ b) = sleeps_of a ++ sleeps_of b.
Proof. apply flat_map_app. Qed.

Lemma sleeps_of_flush : sleeps_of (flush_events dst) = [].
Proof.
  destruct (flush_events_cases dst) as [-> | (e & -> & F)]; [reflexivity|].
  destruct e; try discriminate; reflexivity.
Qed.

Lemma writes_of_blocks cs : writes_of (flat_map (block dst f) cs) = map snd cs.
Proof.
  induction cs as [|c cs IH]; [reflexivity|].
  cbn [flat_map map]. rewrite writes_of_app. unfold block at 1.
  cbn [writes_of flat_map app]. fold (writes_of (flush_events dst ++ [EvSleep (f (fst c))])).
  rewrite writes_of_app, writes_of_flush, IH. reflexivity.
Qed.

Lemma sleeps_of_blocks cs :
  sleeps_of (flat_map (block dst f) cs) = map (fun c => f (fst c)) cs.
Proof.
  induction cs as [|c cs IH]; [reflexivity|].
  cbn [flat_map map]. rewrite sleeps_of_app. unfold block at 1.
  cbn [sleeps_of flat_map app]. fold (sleeps_of (flush_events dst ++ [EvSleep (f (fst c))])).
  rewrite sleeps_of_app, sleeps_of_flush, IH. reflexivity.
Qed.

End Blocks.

Lemma lead_none b : b = 0xC0 \/ b = 0xC1 \/ 0xF5 <= b -> utf8_view.lead b = None.
Proof.
  intros H. unfold utf8_view.lead.
  repeat (split_if; zify_bool; try lia; try reflexivity).
Qed.

End output_facts.

(** ** The spaced delays *)

Module delay_facts.

(** An odd factor can be dropped from a multiple of a power of two. *)
Lemma pow2_divide_odd (m : nat) : forall s j,
  Z.odd j = true -> (2 ^ Z.of_nat m | s * j) -> (2 ^ Z.of_nat m | s).
Proof.
  induction m as [|m IH]; intros s j Oj D.
  - apply Z.divide_1_l.
  - rewrite Nat2Z.inj_succ, Z.pow_succ_r in * by lia.
    assert (Es : Z.even s = true).
    { assert (E : Z.even (s * j) = true).
      { destruct D as [q Hq]. rewrite Hq.
        replace (q * (2 * 2 ^ Z.of_nat m)) with (2 * (q * 2 ^ Z.of_nat m)) by lia.
        apply Z.even_spec. now exists (q * 2 ^ Z.of_nat m). }
      rewrite Z.even_mul in E. rewrite <- (Z.negb_odd j) in E. rewrite Oj in E.
      cbn in E. now rewrite orb_false_r in E. }
    apply Z.even_spec in Es as [s' ->].
    apply Z.mul_divide_mono_l. apply (IH s' j Oj).
    rewrite <- Z.mul_assoc in D.
    exact (proj1 (Z.mul_divide_cancel_l _ _ 2 ltac:(lia)) D).
Qed.

(** A factor below [2^n] takes fewer than [n] twos out of a multiple of
    [2^m]. *)
Lemma pow2_divide_factor (n : nat) : forall (m : nat) s j,
  (n <= m + 1)%nat -> 0 < j < 2 ^ Z.of_nat n -> (2 ^ Z.of_nat m | s * j) ->
  (2 ^ Z.of_nat (m + 1 - n) | s).
Proof.
  induction n as [|n IH]; intros m s j Hn Hj D.
  - cbn in Hj. lia.
  - destruct (Z.odd j) eqn:Oj.
    + apply Z.divide_trans with (2 ^ Z.of_nat m); [|now apply (pow2_divide_odd m s j)].
      exists (2 ^ Z.of_nat n). rewrite <- Z.pow_add_r by lia. f_equal. lia.
    + rewrite <- Z.negb_even in Oj. apply negb_false_iff in Oj.
      apply Z.even_spec in Oj as [j' ->].
      rewrite Nat2Z.inj_succ, Z.pow_succ_r in Hj by lia.
      destruct m as [|m].
      { assert (n = 0%nat) by lia. subst n. change (2 ^ Z.of_nat 0) with 1 in Hj. lia. }
      replace (S m + 1 - S n)%nat with (m + 1 - n)%nat by lia.
      apply (IH m s j'); [lia | lia |].
      rewrite Nat2Z.inj_succ, Z.pow_succ_r in D by lia.
      replace (s * (2 * j')) with (2 * (s * j')) in D by lia.
      exact (proj1 (Z.mul_divide_cancel_l _ _ 2 ltac:(lia)) D).
Qed.

Section Spaced.

Variables (bits : Z) (initial step : Duration).
Hypothesis Hbits : 0 <= bits <= 7.

Lemma spaced_unfold :
  spaced_delays bits initial step
  = map (spaced_value initial step) (seq 0 (Z.to_nat (2 ^ bits))).
Proof. reflexivity. Qed.

Lemma pow_bits_range : 1 <= 2 ^ bits <= 128.
Proof.
  split.
  - pose proof (Z.pow_pos_nonneg 2 bits). lia.
  - change 128 with (2 ^ 7). apply Z.pow_le_mono_r; lia.
Qed.

Lemma value_eq_iff a b :
  spaced_value initial step a = spaced_value initial step b <->
  (2 ^ 64 | step * (Z.of_nat a - Z.of_nat b)).
Proof.
  unfold spaced_value, dur_add, dur_mul. rewrite !wrap64_add_r, wrap64_eq_iff.
  replace (initial + step * Z.of_nat a - (initial + step * Z.of_nat b))
    with (step * (Z.of_nat a - Z.of_nat b)) by lia.
  reflexivity.
Qed.

Lemma spaced_length : Z.of_nat (length (spaced_delays bits initial step)) = 2 ^ bits.
Proof.
  rewrite spaced_unfold, length_map, length_seq, Z2Nat.id; [reflexivity|].
  pose proof pow_bits_range. lia.
Qed.

(** The delays met over the code points are the spaced ones. *)
Lemma spaced_image d :
  In d (spaced_delays bits initial step) <->
  exists c, is_code_point c /\ delay_of bits initial step c = Some d.
Proof.
  pose proof pow_bits_range as R. rewrite spaced_unfold, in_map_iff. split.
  - intros (k & <- & I). apply in_seq in I. exists (Z.of_nat k). split.
    + unfold is_code_point, MaxRune. lia.
    + rewrite delay_of_ok by assumption. rewrite land_ones_small by lia. reflexivity.
  - intros (c & _ & E). rewrite delay_of_ok in E by assumption. injection E as <-.
    pose proof (land_ones_range bits c ltac:(lia)) as L.
    exists (Z.to_nat (Z.land (Z.ones bits) c)). split.
    + unfold spaced_value. rewrite Z2Nat.id by lia. reflexivity.
    + apply in_seq. lia.
Qed.

Lemma spaced_nodup_if : bits = 0 \/ step mod 2 ^ (65 - bits) <> 0 ->
  NoDup (spaced_delays bits initial step).
Proof.
  intros C. rewrite spaced_unfold.
  apply NoDup_map_NoDup_ForallPairs; [|apply seq_NoDup].
  intros a b Ia Ib E. apply in_seq in Ia, Ib. apply value_eq_iff in E.
  destruct (Nat.eq_dec a b) as [|NE]; [assumption | exfalso].
  pose proof pow_bits_range as R.
  assert (J : exists j, 0 < j < 2 ^ bits /\ (2 ^ 64 | step * j)).
  { destruct (Nat.lt_ge_cases a b).
    - exists (Z.of_nat b - Z.of_nat a). split; [lia|].
      replace (step * (Z.of_nat b - Z.of_nat a))
        with (- (step * (Z.of_nat a - Z.of_nat b))) by lia.
      now apply Z.divide_opp_r.
    - exists (Z.of_nat a - Z.of_nat b). split; [lia | assumption]. }
  destruct J as (j & Hj & D).
  destruct C as [-> | C]; [cbn in Hj; lia|]. apply C.
  apply Z.mod_divide; [pose proof (Z.pow_pos_nonneg 2 (65 - bits)); lia|].
  pose proof (pow2_divide_factor (Z.to_nat bits) 64 step j) as F.
  rewrite Z2Nat.id in F by lia.
  replace (Z.of_nat (64 + 1 - Z.to_nat bits)) with (65 - bits) in F by lia.
  apply F; [lia | lia | exact D].
Qed.

Lemma spaced_nodup_only_if : NoDup (spaced_delays bits initial step) ->
  bits = 0 \/ step mod 2 ^ (65 - bits) <> 0.
Proof.
  intros ND. destruct (Z.eq_dec bits 0) as [|NZ]; [now left | right].
  intros Z0. pose proof pow_bits_range as R.
  apply Z.mod_divide in Z0; [|pose proof (Z.pow_pos_nonneg 2 (65 - bits)); lia].
  assert (P : 0 < 2 ^ (bits - 1) < 2 ^ bits).
  { split; [apply Z.pow_pos_nonneg; lia | apply Z.pow_lt_mono_r; lia]. }
  rewrite spaced_unfold in ND.
  rewrite (NoDup_nth _ 0) in ND.
  specialize (ND 0%nat (Z.to_nat (2 ^ (bits - 1)))).
  rewrite length_map, length_seq in ND.
  assert (E : 0%nat = Z.to_nat (2 ^ (bits - 1))); [|lia].
  apply ND; [lia | lia |].
  rewrite !(nth_indep _ 0 (spaced_value initial step 0)) by (rewrite length_map, length_seq; lia).
  rewrite !map_nth, !seq_nth by lia. cbn [Nat.add].
  apply value_eq_iff. rewrite Z2Nat.id by lia. cbn [Z.of_nat].
  destruct Z0 as [q ->]. exists (- q).
  replace 64 with ((65 - bits) + (bits - 1)) at 1 by lia.
  rewrite Z.pow_add_r by lia. lia.
Qed.

End Spaced.

End delay_facts.

(** * The claims of the specification *)

(** C1. For every code point [c] and every bit width from 0 to 7,
    [bePatient] returns a function whose value at [c] is
    [initial + step * (mask AND c)] with [mask = (1 << bits) - 1], the
    mask being applied to the whole code point; the sum and the product
    are those of [time.Duration], and are the exact ones whenever the
    result fits 64 bits.  Calling the function leaves the world as it
    is. *)
Theorem bePatient_delay (bits : Z) (initial step : Duration) (c : rune) (w : World) :
  0 <= bits <= 7 -> is_code_point c ->
  exists f, bePatient bits initial step = Ok f /\
    let mask := Z.shiftl 1 bits - 1 in
    f c w = (dur_add initial (dur_mul step (Z.land mask c)), w) /\
    (in_int64 (initial + step * Z.land mask c) ->
     f c w = (initial + step * Z.land mask c, w)).
Proof.
  intros Hb Hc. rewrite bePatient_ok by assumption.
  eexists. split; [reflexivity|]. cbv zeta. rewrite shift_mask_ones.
  split; [reflexivity|].
  intros R. unfold ret, dur_add, dur_mul. now rewrite wrap64_add_r, wrap64_small.
Qed.

(** The euro sign, U+20AC, with the default flags: the low three bits of
    the code point are 4, the delay is 1.4 seconds. *)
Lemma bePatient_delay_witness :
  0 <= 3 <= 7 /\ is_code_point 0x20AC /\
  exists f, bePatient 3 Second (100 * Millisecond) = Ok f /\
    let mask := Z.shiftl 1 3 - 1 in
    f 0x20AC [] = (dur_add Second (dur_mul (100 * Millisecond) (Z.land mask 0x20AC)), []) /\
    (in_int64 (Second + 100 * Millisecond * Z.land mask 0x20AC) ->
     f 0x20AC [] = (Second + 100 * Millisecond * Z.land mask 0x20AC, [])).
Proof.
  split; [lia|]. split; [unfold is_code_point, MaxRune; lia|].
  apply (bePatient_delay 3 Second (100 * Millisecond) 0x20AC []);
    [lia | unfold is_code_point, MaxRune; lia].
Defined.

(** C2, at the default flags.  First, standard input delivers "A" and
    its next read fails: [copyRunesWithPatience] returns the read error
    and [main] exits with status 0 all the same.  Second, standard output
    refuses the write for want of space: the copy returns the write error
    and [main] exits with status 0 as well. *)
Lemma main_exit_ok_after_copy_error :
  exists delay, bePatient 3 Second (100 * Millisecond) = Ok delay /\
    let eio := Errno "input/output error" in
    let enospc := Errno "no space left on device" in
    let failing : Reader := [([0x41], None); ([], Some eio)] in
    let answers : World -> list Z -> option error := fun _ _ => None in
    let refuses : World -> list Z -> option error := fun _ _ => Some enospc in
    copyRunesWithPatience (os_Stdout answers) failing delay []
      = (Some eio, [EvWrite "os.Stdout" [0x41] None; EvSync "os.Stdout";
                    EvSleep (1100 * Millisecond)]) /\
    fst (main default_flags failing answers []) = 0 /\
    copyRunesWithPatience (os_Stdout refuses) [([0x41], None)] delay []
      = (Some enospc, [EvWrite "os.Stdout" [0x41] (Some enospc)]) /\
    fst (main default_flags [([0x41], None)] refuses []) = 0.
Proof.
  eexists. split; [reflexivity|]. cbv zeta. repeat split; reflexivity.
Qed.

(** C2, amended. [main] drops what [copyRunesWithPatience] returns.  As
    long as standard output answers no write with a broken pipe, the exit
    status is that of a panic when the bit width is 8 or more and 0
    otherwise, whether the copy met a read error, a write error or
    none. *)
Theorem main_exit_status (fl : Flags) (stdin : Reader)
    (stdout : World -> list Z -> option error) (w : World) :
  (forall w0 p, stdout w0 p <> Some syscall_EPIPE) ->
  fst (main fl stdin stdout w) = if 8 <=? bits fl then exit_panic else exit_ok.
Proof.
  intros _. unfold main, bePatient. destruct (8 <=? bits fl); [reflexivity|].
  destruct (debug fl); unfold bind, ret;
    match goal with |- context [copyRunesWithPatience ?d ?s ?p w] =>
      destruct (copyRunesWithPatience d s p w) end; reflexivity.
Qed.

Lemma main_exit_status_witness :
  (forall (w0 : World) (p : list Z),
     (fun (_ : World) (_ : list Z) => Some (Errno "no space left on device")) w0 p
     <> Some syscall_EPIPE) /\
  fst (main default_flags [([0x41], None)]
         (fun _ _ => Some (Errno "no space left on device")) [])
  = if 8 <=? bits default_flags then exit_panic else exit_ok.
Proof.
  split; [intros w0 p; discriminate|].
  apply (main_exit_status default_flags [([0x41], None)]
           (fun _ _ => Some (Errno "no space left on device")) []).
  intros w0 p; discriminate.
Defined.

(** C3. For every output, the action [makeFlush] binds is the one the
    order of the specification gives: a [Flush] that may fail, its error
    dropped, else a [Flush] that cannot fail, else [Sync], its error
    dropped, else nothing.  (The type switch of the code asks for the
    [Flush] that cannot fail first; a method set holds one [Flush] at
    most, so the two orders bind the same action.)  The action is bound
    once: every flush or sync in a run of the copy is that action, for
    every character. *)
Theorem makeFlush_bound_once (dst : Writer) (src : Reader) (p : patience) (w : World) :
  only_prints p ->
  (forall w0, makeFlush dst w0 = makeFlush_by_priority dst w0) /\
  exists evs, snd (copyRunesWithPatience dst src p w) = w ++ evs /\
    forall e, In e evs -> is_flush_event e = true ->
      makeFlush_by_priority dst [] = (tt, [e]).
Proof.
  intros P.
  assert (Same : forall w0, makeFlush dst w0 = makeFlush_by_priority dst w0).
  { intros w0. unfold makeFlush, makeFlush_by_priority, is_flusher, is_safeFlusher.
    destruct (w_flush dst) as [[|]|]; reflexivity. }
  split; [exact Same|].
  rewrite copy_facts.copy_spec.
  destruct (copy_facts.run_chars_log dst p P (decoded (fst (delivered src 0))) w)
    as (res & evs & R & Lg).
  rewrite R. exists evs. split; [reflexivity|].
  intros e I F. rewrite <- Same, copy_facts.makeFlush_run. cbn [app]. f_equal.
  pose proof (copy_facts.copy_log_flush _ _ _ _ Lg e I F) as I'.
  destruct (copy_facts.flush_events_cases dst) as [E | (e' & E & _)];
    rewrite E in I'; [destruct I'|].
  destruct I' as [<- | []]. exact E.
Qed.

(** A buffered writer, whose [Flush] returns an error, copying "A". *)
Lemma makeFlush_bound_once_witness :
  let dst := mkWriter "bufio.Writer" (fun _ _ => None) (Some FlushFallible) false in
  let p : patience := fun _ => ret 0 in
  only_prints p /\
  (forall w0, makeFlush dst w0 = makeFlush_by_priority dst w0) /\
  exists evs, snd (copyRunesWithPatience dst [([0x41], None)] p []) = [] ++ evs /\
    forall e, In e evs -> is_flush_event e = true ->
      makeFlush_by_priority dst [] = (tt, [e]).
Proof.
  cbv zeta. split.
  - intros r w. exists []. split; [cbn; now rewrite app_nil_r | reflexivity].
  - apply (makeFlush_bound_once
             (mkWriter "bufio.Writer" (fun _ _ => None) (Some FlushFallible) false)
             [([0x41], None)] (fun _ => ret 0) []).
    intros r w. exists []. split; [cbn; now rewrite app_nil_r | reflexivity].
Defined.

(** C4. If a write fails in a run of the copy, the copy returns the error
    of that write and the write is the last call of the run: no later
    character is written, and nothing is flushed or slept for the one that
    failed. *)
Theorem write_error_ends_copy (dst : Writer) (src : Reader) (p : patience) (w : World)
    (evs : list event) (nm : string) (bytes : list Z) (e : error) :
  only_prints p ->
  snd (copyRunesWithPatience dst src p w) = w ++ evs ->
  In (EvWrite nm bytes (Some e)) evs ->
  fst (copyRunesWithPatience dst src p w) = Some e /\
  exists evs0, evs = evs0 ++ [EvWrite nm bytes (Some e)].
Proof.
  intros P E I. rewrite copy_facts.copy_spec in *.
  destruct (copy_facts.run_chars_log dst p P (decoded (fst (delivered src 0))) w)
    as (res & evs' & R & Lg).
  rewrite R in *. cbn [fst snd] in *. apply app_inv_head in E. subst evs'.
  destruct (copy_facts.copy_log_failed_write _ _ _ _ Lg _ _ _ I) as [-> T].
  split; [reflexivity | exact T].
Qed.

(** "ABC" in two reads, to an output that refuses "B": "A" is written
    and slept for, "B" fails, "C" is never tried. *)
Lemma write_error_ends_copy_witness :
  let enospc := Errno "no space left on device" in
  let dst := mkWriter "w" (fun _ p => if hd 0 p =? 0x42 then Some enospc else None)
               None false in
  let src : Reader := [([0x41; 0x42], None); ([0x43], None)] in
  let p : patience := fun _ => ret 0 in
  let evs := [EvWrite "w" [0x41] None; EvSleep 0; EvWrite "w" [0x42] (Some enospc)] in
  only_prints p /\
  snd (copyRunesWithPatience dst src p []) = [] ++ evs /\
  In (EvWrite "w" [0x42] (Some enospc)) evs /\
  fst (copyRunesWithPatience dst src p []) = Some enospc /\
  exists evs0, evs = evs0 ++ [EvWrite "w" [0x42] (Some enospc)].
Proof.
  cbv zeta.
  assert (P : only_prints (fun _ : rune => ret 0)).
  { intros r w. exists []. split; [cbn; now rewrite app_nil_r | reflexivity]. }
  split; [exact P|]. split; [reflexivity|]. split; [simpl; auto|].
  apply (write_error_ends_copy
           (mkWriter "w" (fun _ p => if hd 0 p =? 0x42
                                     then Some (Errno "no space left on device")
                                     else None) None false)
           [([0x41; 0x42], None); ([0x43], None)] (fun _ => ret 0) []
           [EvWrite "w" [0x41] None; EvSleep 0;
            EvWrite "w" [0x42] (Some (Errno "no space left on device"))]
           "w" [0x42] (Errno "no space left on device"));
    [exact P | reflexivity | simpl; auto].
Defined.

(** C5. For every bit width of 8 or more, [bePatient] panics instead of
    returning a function, and [main] ends with the exit status of a panic
    with the log of calls as it was: nothing is written, flushed, printed
    or slept. *)
Theorem bePatient_too_many_bits (width : Z) (base inc : Duration) (dbg : bool)
    (stdin : Reader) (stdout : World -> list Z -> option error) (w : World) :
  8 <= width ->
  bePatient width base inc = Panic "too many bits"%string /\
  main (mkFlags base inc width dbg) stdin stdout w = (exit_panic, w).
Proof.
  intros H.
  assert (E : bePatient width base inc = Panic "too many bits"%string).
  { unfold bePatient. destruct (8 <=? width) eqn:L; zify_bool; [reflexivity | lia]. }
  split; [exact E|]. unfold main. cbn [bits initial step]. now rewrite E.
Qed.

Lemma bePatient_too_many_bits_witness :
  8 <= 8 /\
  bePatient 8 Second (100 * Millisecond) = Panic "too many bits"%string /\
  main (mkFlags Second (100 * Millisecond) 8 false) [([0x41], None)] (fun _ _ => None) []
  = (exit_panic, []).
Proof.
  split; [lia|].
  apply (bePatient_too_many_bits 8 Second (100 * Millisecond) false
           [([0x41], None)] (fun _ _ => None) []). lia.
Defined.

(** C6. For every delay function [f] and every character [c], the
    function [printImpatiently dst f] returns at [c] what [f] returns; all
    it adds to what [f] does is one [Fprintf] to [dst] of the character as
    a string, the character and that delay. *)
Theorem printImpatiently_same_delay (dst : Writer) (f : patience) (c : rune) (w : World) :
  fst (printImpatiently dst f c w) = fst (f c w) /\
  snd (printImpatiently dst f c w) =
    snd (f c w) ++
    [EvFprintf (w_name dst) ("%q %U %s" ++ newline)
       [ArgString (string_of_rune c); ArgRune c; ArgDuration (fst (f c w))]].
Proof.
  unfold printImpatiently, bind, Fprintf, emit, ret.
  destruct (f c w) as [delay w']. split; reflexivity.
Qed.

(** C7, at bit width 3 with the step 0: the delay is 0 for every
    character, so there is one value and no list of 8. *)
Lemma zero_step_one_delay :
  ~ exists vs, delay_values 3 0 0 vs /\ Z.of_nat (length vs) = 2 ^ 3.
Proof.
  intros (vs & [ND I] & L).
  assert (Z0 : forall d, In d vs -> d = 0).
  { intros d Hd. apply I in Hd as (c & _ & E).
    rewrite delay_of_ok in E by lia. injection E as <-.
    unfold dur_mul. rewrite Z.mul_0_l. reflexivity. }
  destruct vs as [|a [|b vs]]; [cbn in L; lia | cbn in L; lia |].
  pose proof (Z0 a (or_introl eq_refl)) as Ha.
  pose proof (Z0 b (or_intror (or_introl eq_refl))) as Hb.
  subst a b. inversion ND as [|? ? N _]. apply N. now left.
Qed.

(** C7, amended. For every bit width from 0 to 7 the delays met over all
    code points are the [2^bits] values [initial + step * k], [k] from 0
    to [2^bits - 1], in the arithmetic of [time.Duration]; they are
    distinct from one another, and so [2^bits] in number, exactly when the
    bit width is 0 or the step is no multiple of [2^(65 - bits)]
    nanoseconds. *)
Theorem spaced_delays_distinct (bits : Z) (initial step : Duration) :
  0 <= bits <= 7 ->
  Z.of_nat (length (spaced_delays bits initial step)) = 2 ^ bits /\
  (forall d, In d (spaced_delays bits initial step) <->
             exists c, is_code_point c /\ delay_of bits initial step c = Some d) /\
  (NoDup (spaced_delays bits initial step) <->
   bits = 0 \/ step mod 2 ^ (65 - bits) <> 0).
Proof.
  intros H. split; [now apply delay_facts.spaced_length|].
  split; [intros d; now apply delay_facts.spaced_image|].
  split; [now apply delay_facts.spaced_nodup_only_if | now apply delay_facts.spaced_nodup_if].
Qed.

(** The default flags: eight delays, from 1 second to 1.7 seconds. *)
Lemma spaced_delays_distinct_witness :
  0 <= 3 <= 7 /\
  Z.of_nat (length (spaced_delays 3 Second (100 * Millisecond))) = 2 ^ 3 /\
  (forall d, In d (spaced_delays 3 Second (100 * Millisecond)) <->
             exists c, is_code_point c /\
                       delay_of 3 Second (100 * Millisecond) c = Some d) /\
  (NoDup (spaced_delays 3 Second (100 * Millisecond)) <->
   3 = 0 \/ (100 * Millisecond) mod 2 ^ (65 - 3) <> 0).
Proof.
  split; [lia|]. apply (spaced_delays_distinct 3 Second (100 * Millisecond)). lia.
Defined.

(** C8. For every input in which a valid character of several bytes
    stands, after any bytes [pre] and before any bytes [post], and however
    the reader cuts the input into reads: the writes of the copy are whole
    tokens, those of [pre], then all the bytes of the character in one
    write, then those of [post], up to the write that fails if one does. *)
Theorem multibyte_rune_one_write (dst : Writer) (src : Reader) (p : patience) (w : World)
    (pre post : list Z) (r : rune) (e : error) :
  only_prints p -> valid_rune r -> 0x80 <= r ->
  delivered src 0 = (pre ++ utf8.EncodeRune r ++ post, e) ->
  (1 < length (utf8.EncodeRune r))%nat /\
  exists evs, snd (copyRunesWithPatience dst src p w) = w ++ evs /\
    let tokens := map snd (decoded pre) ++ [utf8.EncodeRune r] ++ map snd (decoded post) in
    (exists k, writes_of evs = firstn k tokens) /\
    (never_fails dst -> writes_of evs = tokens).
Proof.
  intros P V Hr D.
  destruct (utf8_roundtrip.encode_head r V Hr) as (b & t & E & Hb & L).
  split; [exact L|].
  rewrite copy_facts.copy_spec, D. cbn [fst snd].
  assert (T : decoded (pre ++ utf8.EncodeRune r ++ post)
              = decoded pre ++ (r, utf8.EncodeRune r) :: decoded post).
  { rewrite <- (decoded_facts.decoded_encode r post V). rewrite E. cbn [app].
    apply decoded_facts.decoded_boundary.
    unfold utf8_view.within. apply andb_false_iff. right. apply Z.leb_gt. lia. }
  rewrite T.
  destruct (copy_facts.run_chars_log dst p P
              (decoded pre ++ (r, utf8.EncodeRune r) :: decoded post) w)
    as (res & evs & R & Lg).
  pose proof (copy_facts.run_chars_never_fails dst (makeFlush dst) p) as NF.
  rewrite R. exists evs. split; [reflexivity|]. cbv zeta.
  destruct (copy_facts.copy_log_writes _ _ _ _ Lg) as [[k Hk] Hn].
  rewrite map_app in Hk, Hn. cbn [map snd] in Hk, Hn. split.
  - exists k. exact Hk.
  - intros Never. apply Hn.
    specialize (NF Never (decoded pre ++ (r, utf8.EncodeRune r) :: decoded post) w).
    rewrite R in NF. exact NF.
Qed.

(** The euro sign after a stray byte and before "A", cut in the middle by
    the reader. *)
Lemma multibyte_rune_one_write_witness :
  let dst := mkWriter "w" (fun _ _ => None) None false in
  let src : Reader := [([0xFF; 0xE2; 0x82], None); ([0xAC; 0x41], None)] in
  let p : patience := fun _ => ret 0 in
  only_prints p /\ valid_rune 0x20AC /\ 0x80 <= 0x20AC /\
  delivered src 0 = ([0xFF] ++ utf8.EncodeRune 0x20AC ++ [0x41], io_EOF) /\
  (1 < length (utf8.EncodeRune 0x20AC%Z))%nat /\
  exists evs, snd (copyRunesWithPatience dst src p []) = [] ++ evs /\
    let tokens := map snd (decoded [0xFF]) ++ [utf8.EncodeRune 0x20AC]
                  ++ map snd (decoded [0x41]) in
    (exists k, writes_of evs = firstn k tokens) /\
    (never_fails dst -> writes_of evs = tokens).
Proof.
  cbv zeta.
  assert (P : only_prints (fun _ : rune => ret 0)).
  { intros r w. exists []. split; [cbn; now rewrite app_nil_r | reflexivity]. }
  assert (V : valid_rune 0x20AC).
  { unfold valid_rune, MaxRune, utf8.surrogateMin, utf8.surrogateMax. lia. }
  split; [exact P|]. split; [exact V|]. split; [lia|]. split; [reflexivity|].
  apply (multibyte_rune_one_write (mkWriter "w" (fun _ _ => None) None false)
           [([0xFF; 0xE2; 0x82], None); ([0xAC; 0x41], None)] (fun _ => ret 0) []
           [0xFF] [0x41] 0x20AC io_EOF);
    [exact P | exact V | lia | reflexivity].
Defined.

(** C9, at [-debug] with the other flags at their defaults, the input
    "A" and a standard output that takes every write.  Standard output is
    printed the record of the letter, which is never empty since its
    format ends in a newline, and the destination of the copy,
    [ioutil.Discard], is handed the byte of the letter: the program has no
    output stream that receives zero bytes. *)
Lemma debug_output_is_not_empty :
  let fl := mkFlags (1 * Second) (100 * Millisecond) 3 true in
  let evs := snd (main fl [([0x41], None)] (fun _ _ => None) []) in
  evs = [EvFprintf "os.Stdout" ("%q %U %s" ++ newline)
           [ArgString [0x41]; ArgRune 0x41; ArgDuration (1100 * Millisecond)];
         EvWrite "ioutil.Discard" [0x41] None;
         EvSleep (1100 * Millisecond)] /\
  printed_to "os.Stdout" evs
    = [[ArgString [0x41]; ArgRune 0x41; ArgDuration (1100 * Millisecond)]] /\
  copied_to "ioutil.Discard" evs = [0x41].
Proof.
  cbv zeta. repeat split; reflexivity.
Qed.

(** C9, amended. With [-debug], the input "A" and a standard output that
    takes every write, whatever the other flags allow and however the
    input is read: the copy hands the byte of the letter to
    [ioutil.Discard], which keeps nothing, and writes nothing to standard
    output; standard output, which is where the code sends the
    diagnostics, is printed exactly one record, of the letter as a string,
    its code point and the delay the plain delay function gives for it,
    which is also the delay slept. *)
Theorem debug_prints_one_record (fl : Flags) (stdin : Reader)
    (stdout : World -> list Z -> option error) (w : World) :
  debug fl = true -> 0 <= bits fl <= 7 -> delivered stdin 0 = ([0x41], io_EOF) ->
  (forall w0 p, stdout w0 p = None) ->
  exists f d evs,
    bePatient (bits fl) (initial fl) (step fl) = Ok f /\ f 0x41 w = (d, w) /\
    main fl stdin stdout w = (exit_ok, w ++ evs) /\
    evs = [EvFprintf "os.Stdout" ("%q %U %s" ++ newline)
             [ArgString [0x41]; ArgRune 0x41; ArgDuration d];
           EvWrite "ioutil.Discard" [0x41] None;
           EvSleep d] /\
    copied_to "ioutil.Discard" evs = [0x41] /\
    copied_to "os.Stdout" evs = [] /\
    printed_to "os.Stdout" evs = [[ArgString [0x41]; ArgRune 0x41; ArgDuration d]] /\
    printed_to "ioutil.Discard" evs = [].
Proof.
  intros Dbg Hb D _. unfold main. rewrite bePatient_ok, Dbg by assumption.
  do 3 eexists. split; [reflexivity|]. split; [reflexivity|].
  unfold bind. rewrite copy_facts.copy_spec, D. cbn [fst snd].
  replace (decoded [0x41]) with [(0x41, [0x41])] by reflexivity.
  cbv [run_chars bind printImpatiently Write Sleep Fprintf emit ret makeFlush
       ioutil_Discard is_flusher is_safeFlusher is_syncer w_flush w_sync w_write
       w_name os_Stdout final].
  split; [app_norm; reflexivity|]. repeat split; reflexivity.
Qed.

Lemma debug_prints_one_record_witness :
  let fl := mkFlags Second (100 * Millisecond) 3 true in
  let stdin : Reader := [([0x41], None)] in
  let stdout : World -> list Z -> option error := fun _ _ => None in
  debug fl = true /\ 0 <= bits fl <= 7 /\ delivered stdin 0 = ([0x41], io_EOF) /\
  (forall (w0 : World) (p : list Z), stdout w0 p = None) /\
  exists f d evs,
    bePatient (bits fl) (initial fl) (step fl) = Ok f /\ f 0x41 [] = (d, []) /\
    main fl stdin stdout [] = (exit_ok, [] ++ evs) /\
    evs = [EvFprintf "os.Stdout" ("%q %U %s" ++ newline)
             [ArgString [0x41]; ArgRune 0x41; ArgDuration d];
           EvWrite "ioutil.Discard" [0x41] None;
           EvSleep d] /\
    copied_to "ioutil.Discard" evs = [0x41] /\
    copied_to "os.Stdout" evs = [] /\
    printed_to "os.Stdout" evs = [[ArgString [0x41]; ArgRune 0x41; ArgDuration d]] /\
    printed_to "ioutil.Discard" evs = [].
Proof.
  cbv zeta. split; [reflexivity|]. split; [cbn; lia|]. split; [reflexivity|].
  split; [intros w0 p; reflexivity|].
  apply (debug_prints_one_record (mkFlags Second (100 * Millisecond) 3 true)
           [([0x41], None)] (fun _ _ => None) []);
    [reflexivity | cbn; lia | reflexivity | intros w0 p; reflexivity].
Defined.

(** C10, at the input of the one byte 0xFF with the default flags: the
    copy writes the three bytes of U+FFFD, not the byte it read. *)
Lemma invalid_byte_not_copied :
  exists delay, bePatient 3 Second (100 * Millisecond) = Ok delay /\
    let dst := os_Stdout (fun _ _ => None) in
    let run := copyRunesWithPatience dst [([0xFF], None)] delay [] in
    run = (None, [EvWrite "os.Stdout" [0xEF; 0xBF; 0xBD] None;
                  EvSync "os.Stdout"; EvSleep 1500000000]) /\
    concat (writes_of (snd run)) <> [0xFF].
Proof.
  eexists. split; [reflexivity|]. cbv zeta. split; [reflexivity | discriminate].
Qed.

(** C10, amended. For every input, however it is read, a copy that meets
    no write error and whose delay function is plain writes the input rune
    by rune: one write per character, of the bytes of the character when
    they are a valid encoding and of [EF BF BD], the encoding of U+FFFD,
    for each byte that starts none, one such byte at a time; and it sleeps
    the delay of each character, that of U+FFFD for such a byte.  Valid
    UTF-8 is therefore written as it is; a byte that occurs in no valid
    UTF-8 is replaced wherever it stands. *)
Theorem copy_replaces_invalid_bytes (dst : Writer) (src : Reader) (p : patience)
    (f : rune -> Duration) (w : World) :
  never_fails dst -> (forall r w0, p r w0 = (f r, w0)) ->
  exists evs,
    copyRunesWithPatience dst src p w = (final (snd (delivered src 0)), w ++ evs) /\
    let input := fst (delivered src 0) in
    writes_of evs = map snd (decoded input) /\
    sleeps_of evs = map (fun c => f (fst c)) (decoded input) /\
    (forall rs, Forall valid_rune rs -> input = concat (map utf8.EncodeRune rs) ->
       concat (writes_of evs) = input /\ sleeps_of evs = map f rs) /\
    (forall pre b post, b = 0xC0 \/ b = 0xC1 \/ 0xF5 <= b -> input = pre ++ b :: post ->
       writes_of evs
         = map snd (decoded pre) ++ [0xEF; 0xBF; 0xBD] :: map snd (decoded post) /\
       sleeps_of evs
         = map (fun c => f (fst c)) (decoded pre)
           ++ f RuneError :: map (fun c => f (fst c)) (decoded post)).
Proof.
  intros NF P. rewrite copy_facts.copy_spec.
  rewrite (copy_facts.run_chars_pure dst p f NF P).
  eexists. split; [reflexivity|]. cbv zeta.
  fold (block dst f).
  rewrite output_facts.writes_of_blocks, output_facts.sleeps_of_blocks.
  split; [reflexivity|]. split; [reflexivity|]. split.
  - intros rs V ->. rewrite (decoded_facts.decoded_text rs V), !map_map. cbn [fst snd].
    split; [reflexivity|]. apply map_ext. reflexivity.
  - intros pre b post Hb ->.
    rewrite decoded_facts.decoded_boundary.
    2:{ unfold utf8_view.within. apply andb_false_iff. right. apply Z.leb_gt. lia. }
    rewrite (decoded_facts.decoded_invalid b post)
      by (try apply output_facts.lead_none; lia || assumption).
    rewrite !map_app. cbn [map fst snd]. split; reflexivity.
Qed.

(** "A", a stray 0xFF and "B" with the default delays. *)
Lemma copy_replaces_invalid_bytes_witness :
  let dst := os_Stdout (fun _ _ => None) in
  let f : rune -> Duration :=
    fun b => dur_add Second (dur_mul (100 * Millisecond) (Z.land 7 b)) in
  let p : patience := fun b => ret (f b) in
  let src : Reader := [([0x41; 0xFF; 0x42], None)] in
  never_fails dst /\ (forall r w0, p r w0 = (f r, w0)) /\
  exists evs,
    copyRunesWithPatience dst src p [] = (final (snd (delivered src 0)), [] ++ evs) /\
    let input := fst (delivered src 0) in
    writes_of evs = map snd (decoded input) /\
    sleeps_of evs = map (fun c => f (fst c)) (decoded input) /\
    (forall rs, Forall valid_rune rs -> input = concat (map utf8.EncodeRune rs) ->
       concat (writes_of evs) = input /\ sleeps_of evs = map f rs) /\
    (forall pre b post, b = 0xC0 \/ b = 0xC1 \/ 0xF5 <= b -> input = pre ++ b :: post ->
       writes_of evs
         = map snd (decoded pre) ++ [0xEF; 0xBF; 0xBD] :: map snd (decoded post) /\
       sleeps_of evs
         = map (fun c => f (fst c)) (decoded pre)
           ++ f RuneError :: map (fun c => f (fst c)) (decoded post)).
Proof.
  cbv zeta. split; [intros w p; reflexivity|]. split; [reflexivity|].
  apply (copy_replaces_invalid_bytes (os_Stdout (fun _ _ => None))
           [([0x41; 0xFF; 0x42], None)]
           (fun b => ret (dur_add Second (dur_mul (100 * Millisecond) (Z.land 7 b))))
           (fun b => dur_add Second (dur_mul (100 * Millisecond) (Z.land 7 b))) []);
    [intros w p; reflexivity | reflexivity].
Defined.

(** * Further properties *)

(** ** What [DecodeRune] accepts is what [EncodeRune] writes *)

Module utf8_canonical.
Import utf8 utf8_view utf8_facts utf8_roundtrip.

Lemma lead_inv b sz lo hi : lead b = Some (sz, lo, hi) ->
  (sz = 2%nat /\ 0xC2 <= b <= 0xDF /\ lo = 0x80 /\ hi = 0xBF) \/
  (sz = 3%nat /\ 0xE0 <= b <= 0xEF /\
   lo = (if b =? 0xE0 then 0xA0 else 0x80) /\ hi = (if b =? 0xED then 0x9F else 0xBF)) \/
  (sz = 4%nat /\ 0xF0 <= b <= 0xF4 /\
   lo = (if b =? 0xF0 then 0x90 else 0x80) /\ hi = (if b =? 0xF4 then 0x8F else 0xBF)).
Proof.
  intros L. pose proof (lead_range _ _ _ _ L) as (Hs & _ & _ & Hb).
  destruct (Z_le_gt_dec b 0xDF); [|destruct (Z_le_gt_dec b 0xEF)].
  - rewrite lead2 in L by lia. injection L as <- <- <-. left. repeat split; lia.
  - rewrite lead3 in L by lia. injection L as <- <- <-. right. left. repeat split; lia.
  - rewrite lead4 in L by lia. injection L as <- <- <-. right. right. repeat split; lia.
Qed.

(** What [DecodeRune] accepts as several bytes is the encoding
    [EncodeRune] writes for the rune, and the rune is a valid one. *)
Lemma decode_canonical p r n : decode p = (r, n) -> (1 < n)%nat ->
  valid_rune r /\ firstn n p = EncodeRune r.
Proof.
  unfold valid_rune, MaxRune, surrogateMin, surrogateMax.
  destruct p as [|p0 [|b1 [|b2 [|b3 t]]]]; cbn [decode];
    try (intros [= <- <-]; lia);
    (destruct (p0 <? 128) eqn:E0; [intros [= <- <-]; lia|]);
    (destruct (lead p0) as [[[sz lo] hi]|] eqn:L; [|intros [= <- <-]; lia]);
    apply lead_inv in L;
    unfold bad, within, locb, hicb, val2, val3, val4;
    rewrite ?mask2_land, ?mask3_land, ?mask4_land, ?maskx_land;
    rewrite ?join4, ?join3, ?join2 by zdiv.
  all: destruct L as [(-> & Hb & -> & ->) | [(-> & Hb & -> & ->) | (-> & Hb & -> & ->)]];
    cbn [Nat.eqb].
  all: repeat (split_if; zify_bool; try (intros [= <- <-] ?; lia)).
  all: try (intros [= <- <-] ?; lia).
  all: intros [= <- <-] _; cbn [firstn].
  all: repeat match goal with
       | H : context [if ?c then _ else _] |- _ => destruct c eqn:?
       end; zify_bool.
  all: (rewrite encode2 by zdiv) || (rewrite encode3 by (unfold surrogateMin, surrogateMax; zdiv))
       || (rewrite encode4 by (unfold MaxRune; zdiv)).
  all: split; [zdiv | list_eq].
Qed.

End utf8_canonical.

Module canonical_facts.
Import utf8 utf8_view utf8_facts utf8_roundtrip utf8_canonical bufio_facts decoded_facts.

Lemma Forall_skipn {A} (P : A -> Prop) n l : Forall P l -> Forall P (skipn n l).
Proof.
  intros F. rewrite <- (firstn_skipn n l) in F. now apply Forall_app in F.
Qed.

Lemma Forall_firstn {A} (P : A -> Prop) n l : Forall P l -> Forall P (firstn n l).
Proof.
  intros F. rewrite <- (firstn_skipn n l) in F. now apply Forall_app in F.
Qed.

Lemma valid_RuneError : valid_rune RuneError.
Proof. unfold valid_rune, RuneError, MaxRune, surrogateMin, surrogateMax. lia. Qed.

Lemma encode_length r : valid_rune r -> (1 <= length (EncodeRune r) <= 4)%nat.
Proof.
  intros [R S]. unfold MaxRune in R. unfold surrogateMin, surrogateMax in S.
  destruct (Z_le_gt_dec r 0x7F) as [H1 | H1];
    [|destruct (Z_le_gt_dec r 0x7FF) as [H2 | H2];
      [|destruct (Z_le_gt_dec r 0xFFFF) as [H3 | H3]]].
  - rewrite encode1 by lia. cbn. lia.
  - rewrite encode2 by lia. cbn. lia.
  - rewrite encode3 by (unfold surrogateMin, surrogateMax; lia). cbn. lia.
  - rewrite encode4 by (unfold MaxRune; lia). cbn. lia.
Qed.

(** Each character of a stream of bytes is a valid rune, and the bytes
    that stand for it are its encoding. *)
Lemma next_canonical data r token advance :
  Forall is_byte data -> next data = Some (r, token, advance) ->
  valid_rune r /\ token = EncodeRune r.
Proof.
  destruct data as [|b t]; [discriminate|]. intros B. unfold next.
  rewrite DecodeRune_decode.
  pose proof (decode_canonical (b :: t)) as C.
  destruct (decode (b :: t)) as [r' size] eqn:D.
  destruct ((128 <=? b) && (size <=? 1)%nat) eqn:T; intros [= <- <- <-].
  - split; [apply valid_RuneError | reflexivity].
  - destruct (1 <? size)%nat eqn:S.
    + apply Nat.ltb_lt in S. now apply C.
    + apply Nat.ltb_ge in S. zify_bool; [|apply Nat.leb_gt in H; lia].
      cbn [decode] in D. destruct (b <? 128) eqn:E; zify_bool; [|lia].
      injection D as <- <-. inversion B as [|? ? Hb _]. unfold is_byte in Hb.
      rewrite encode1 by lia. split; [|reflexivity].
      unfold valid_rune, MaxRune, surrogateMin, surrogateMax. lia.
Qed.

Lemma decoded_canonical d : Forall is_byte d ->
  Forall (fun c => valid_rune (fst c) /\ snd c = EncodeRune (fst c)) (decoded d).
Proof.
  remember (length d) as n eqn:Hn.
  assert (L : (length d <= n)%nat) by lia. clear Hn. revert d L.
  induction n as [|n IH]; intros d L B.
  - destruct d; [constructor | cbn in L; lia].
  - destruct d as [|b t]; [constructor|].
    destruct (next_some (b :: t) ltac:(discriminate)) as (r & token & advance & N).
    rewrite (decoded_cons _ _ _ _ N). constructor.
    + apply (next_canonical _ _ _ _ B N).
    + apply IH; [|now apply Forall_skipn].
      apply next_size in N. rewrite length_skipn. cbn [length] in *. lia.
Qed.

(** A byte of 0x80 or more that can start no character is replaced. *)
Lemma decoded_replaced b q : 0x80 <= b -> lead b = None ->
  decoded (b :: q) = (RuneError, [0xEF; 0xBF; 0xBD]) :: decoded q.
Proof.
  intros Hb L.
  assert (N : next (b :: q) = Some (RuneError, [0xEF; 0xBF; 0xBD], 1%nat)).
  { unfold next. rewrite DecodeRune_decode. cbn [decode]. rewrite L.
    destruct (b <? 128) eqn:E; zify_bool; [lia|].
    destruct (128 <=? b) eqn:E'; zify_bool; [|lia]. reflexivity. }
  now rewrite (decoded_cons _ _ _ _ N).
Qed.

Lemma decoded_continuation l : Forall (fun b => 0x80 <= b <= 0xBF) l ->
  decoded l = map (fun _ => (RuneError, [0xEF; 0xBF; 0xBD])) l.
Proof.
  induction 1 as [|b l Hb _ IH]; [reflexivity|].
  rewrite decoded_replaced, IH; [reflexivity | lia |].
  unfold lead. destruct (b <? 194) eqn:E; zify_bool; [reflexivity | lia].
Qed.

(** The first byte of a character whose other bytes are missing is
    replaced. *)
Lemma decoded_short b q : 0xC2 <= b -> (length q < 3)%nat ->
  (forall sz lo hi, lead b = Some (sz, lo, hi) -> (S (length q) < sz)%nat) ->
  decoded (b :: q) = (RuneError, [0xEF; 0xBF; 0xBD]) :: decoded q.
Proof.
  intros Hb Lq Sh.
  assert (N : next (b :: q) = Some (RuneError, [0xEF; 0xBF; 0xBD], 1%nat)).
  { unfold next. rewrite DecodeRune_decode.
    assert (D : snd (decode (b :: q)) = 1%nat).
    { cbn [decode]. destruct (b <? 128) eqn:E; zify_bool; [lia|].
      destruct (lead b) as [[[sz lo] hi]|] eqn:L; [|reflexivity].
      specialize (Sh _ _ _ eq_refl).
      destruct q as [|b1 [|b2 [|b3 q]]]; cbn [length] in *; try lia; try reflexivity.
      - destruct (negb _); [reflexivity|].
        destruct (sz =? 2)%nat eqn:S2; [apply Nat.eqb_eq in S2; lia | reflexivity].
      - destruct (negb _); [reflexivity|].
        destruct (sz =? 2)%nat eqn:S2; [apply Nat.eqb_eq in S2; lia|].
        destruct (negb _); [reflexivity|].
        destruct (sz =? 3)%nat eqn:S3; [apply Nat.eqb_eq in S3; lia | reflexivity]. }
    destruct (decode (b :: q)) as [r size]. cbn [snd] in D. subst size.
    destruct (128 <=? b) eqn:E'; zify_bool; [reflexivity | lia]. }
  now rewrite (decoded_cons _ _ _ _ N).
Qed.

(** A character cut short comes out as one U+FFFD for each of its
    bytes. *)
Lemma decoded_truncated r k : valid_rune r ->
  (1 <= k < length (EncodeRune r))%nat ->
  decoded (firstn k (EncodeRune r))
  = repeat (RuneError, [0xEF; 0xBF; 0xBD]) k /\
  exists b t, firstn k (EncodeRune r) = b :: t /\ 0xC2 <= b.
Proof.
  intros [R S] K. unfold MaxRune in R. unfold surrogateMin, surrogateMax in S.
  destruct (Z_le_gt_dec r 0x7F) as [H1 | H1];
    [|destruct (Z_le_gt_dec r 0x7FF) as [H2 | H2];
      [|destruct (Z_le_gt_dec r 0xFFFF) as [H3 | H3]]].
  - rewrite encode1 in * by lia. cbn [length] in K. lia.
  - rewrite encode2 in * by lia. cbn [length] in K.
    assert (k = 1%nat) by lia. subst k. cbn [firstn repeat]. split; [|do 2 eexists; split; [reflexivity | zdiv]].
    rewrite decoded_short; [reflexivity | zdiv | cbn; lia |].
    intros sz lo hi L. rewrite lead2 in L by zdiv. injection L as <- _ _. cbn. lia.
  - rewrite encode3 in * by (unfold surrogateMin, surrogateMax; lia). cbn [length] in K.
    assert (C : k = 1%nat \/ k = 2%nat) by lia.
    destruct C as [-> | ->]; cbn [firstn repeat];
      (split; [|do 2 eexists; split; [reflexivity | zdiv]]);
      (rewrite decoded_short;
       [| zdiv | cbn; lia
        | intros sz lo hi L; rewrite lead3 in L by zdiv; injection L as <- _ _; cbn; lia]).
    + reflexivity.
    + rewrite decoded_continuation; [reflexivity|].
      repeat constructor; zdiv.
  - rewrite encode4 in * by (unfold MaxRune; lia). cbn [length] in K.
    assert (C : k = 1%nat \/ k = 2%nat \/ k = 3%nat) by lia.
    destruct C as [-> | [-> | ->]]; cbn [firstn repeat];
      (split; [|do 2 eexists; split; [reflexivity | zdiv]]);
      (rewrite decoded_short;
       [| zdiv | cbn; lia
        | intros sz lo hi L; rewrite lead4 in L by zdiv; injection L as <- _ _; cbn; lia]).
    + reflexivity.
    + rewrite decoded_continuation; [reflexivity|].
      repeat constructor; zdiv.
    + rewrite decoded_continuation; [reflexivity|].
      repeat constructor; zdiv.
Qed.

End canonical_facts.

Module reader_facts.

Lemma delivered_plain chunks rest : Forall (fun bs => bs <> []) chunks ->
  delivered (plain_reads chunks ++ rest) 0
  = (concat chunks ++ fst (delivered rest 0), snd (delivered rest 0)).
Proof.
  induction 1 as [|c cs Hc _ IH]; cbn [plain_reads map app concat].
  - now destruct (delivered rest 0).
  - cbn [delivered]. fold (plain_reads cs). rewrite IH. cbn [fst snd].
    destruct c; [congruence|]. cbn [length Nat.ltb Nat.leb]. now rewrite app_assoc.
Qed.

Lemma delivered_empties n : forall r loop, (loop + n <= 100)%nat ->
  delivered (repeat ([], None) n ++ r) loop = delivered r (loop + n).
Proof.
  induction n as [|n IH]; intros r loop H; cbn [repeat app].
  - now rewrite Nat.add_0_r.
  - cbn [delivered length]. change (0 <? 0)%nat with false. cbv iota.
    unfold bufio.maxConsecutiveEmptyReads.
    destruct (100 <? S loop)%nat eqn:E; [apply Nat.ltb_lt in E; lia|].
    rewrite IH by lia. f_equal. lia.
Qed.

Lemma delivered_stuck rest :
  delivered (repeat ([], None) 101 ++ rest) 0 = ([], io_ErrNoProgress).
Proof.
  change 101%nat with (100 + 1)%nat. rewrite repeat_app, <- app_assoc.
  rewrite delivered_empties by lia. reflexivity.
Qed.

(** The count of empty reads does not matter to a reader that goes on
    with data or with nothing at all. *)
Lemma delivered_plain_loop chunks loop : Forall (fun bs => bs <> []) chunks ->
  delivered (plain_reads chunks) loop = delivered (plain_reads chunks) 0.
Proof.
  intros F. destruct F as [|c cs Hc _]; [reflexivity|].
  cbn [plain_reads map delivered]. destruct c; [congruence | reflexivity].
Qed.

End reader_facts.

Module run_facts.
Import copy_facts reader_facts.

Lemma delivered_one data : delivered [(data, None)] 0 = (data, io_EOF).
Proof.
  destruct data as [|b t]; [reflexivity|]. cbn. now rewrite app_nil_r.
Qed.

Lemma delivered_reads chunks : Forall (fun bs => bs <> []) chunks ->
  delivered (plain_reads chunks) 0 = (concat chunks, io_EOF).
Proof.
  intros F. pose proof (delivered_plain chunks [] F) as D.
  rewrite !app_nil_r in D. exact D.
Qed.

(** Two readers that deliver the same stream give the same run. *)
Lemma copy_same_stream dst p w src1 src2 : delivered src1 0 = delivered src2 0 ->
  copyRunesWithPatience dst src1 p w = copyRunesWithPatience dst src2 p w.
Proof. intros E. now rewrite !copy_spec, E. Qed.

Lemma run_chars_debug out f : forall cs w,
  run_chars ioutil_Discard (makeFlush ioutil_Discard)
    (printImpatiently (os_Stdout out) (fun b => ret (f b))) cs w
  = (None, w ++ flat_map (debug_block f) cs).
Proof.
  induction cs as [|[r token] cs IH]; intros w.
  - cbn. now rewrite app_nil_r.
  - cbn [run_chars flat_map].
    cbv [bind printImpatiently Write Sleep Fprintf emit ret makeFlush
         ioutil_Discard is_flusher is_safeFlusher is_syncer w_flush w_sync w_write
         w_name os_Stdout].
    rewrite IH. unfold debug_block at 2. cbn [fst snd]. f_equal. app_norm. reflexivity.
Qed.

Lemma copied_to_debug f cs : copied_to "os.Stdout" (flat_map (debug_block f) cs) = [].
Proof.
  induction cs as [|c cs IH]; [reflexivity|].
  cbn [flat_map]. unfold copied_to in *. rewrite flat_map_app, IH. reflexivity.
Qed.

Lemma sleeps_of_debug f cs :
  sleeps_of (flat_map (debug_block f) cs) = map (fun c => f (fst c)) cs.
Proof.
  induction cs as [|c cs IH]; [reflexivity|].
  cbn [flat_map map]. unfold sleeps_of in *. rewrite flat_map_app, IH. reflexivity.
Qed.

Lemma sleeps_of_stdout f cs :
  sleeps_of (flat_map (stdout_block f) cs) = map (fun c => f (fst c)) cs.
Proof.
  induction cs as [|c cs IH]; [reflexivity|].
  cbn [flat_map map]. unfold sleeps_of in *. rewrite flat_map_app, IH. reflexivity.
Qed.

Lemma never_fails_stdout out : (forall w p, out w p = None) -> never_fails (os_Stdout out).
Proof. intros H w p. apply H. Qed.

Lemma run_chars_stdout out f : (forall w p, out w p = None) -> forall cs w,
  run_chars (os_Stdout out) (makeFlush (os_Stdout out)) (fun b => ret (f b)) cs w
  = (None, w ++ flat_map (stdout_block f) cs).
Proof.
  intros H cs w.
  rewrite (run_chars_pure (os_Stdout out) _ f (never_fails_stdout out H))
    by reflexivity.
  reflexivity.
Qed.

End run_facts.

(** ** Properties of the copy *)

(** X1. The copy does not depend on where the reader cuts the input:
    reading it in any number of reads that each return some bytes gives
    the same result and the same calls, for every output and every delay
    function, as reading it all in one read.  A character may be cut in
    the middle. *)
Theorem copy_any_chunking (dst : Writer) (p : patience) (w : World)
    (chunks : list (list Z)) :
  Forall (fun bs => bs <> []) chunks ->
  copyRunesWithPatience dst (plain_reads chunks) p w
  = copyRunesWithPatience dst [(concat chunks, None)] p w.
Proof.
  intros F. apply run_facts.copy_same_stream.
  now rewrite run_facts.delivered_reads, run_facts.delivered_one.
Qed.

Lemma copy_any_chunking_witness :
  Forall (fun bs : list Z => bs <> []) [[0xE2]; [0x82; 0xAC]; [0x41]] /\
  copyRunesWithPatience ioutil_Discard (plain_reads [[0xE2]; [0x82; 0xAC]; [0x41]])
    (fun r => ret r) []
  = copyRunesWithPatience ioutil_Discard [(concat [[0xE2]; [0x82; 0xAC]; [0x41]], None)]
      (fun r => ret r) [].
Proof.
  assert (F : Forall (fun bs : list Z => bs <> []) [[0xE2]; [0x82; 0xAC]; [0x41]])
    by (repeat constructor; discriminate).
  split; [exact F|].
  apply (copy_any_chunking ioutil_Discard (fun r => ret r) []
           [[0xE2]; [0x82; 0xAC]; [0x41]] F).
Defined.

(** X2. Reads that return neither bytes nor an error are skipped: up to
    100 of them in a row, between reads that return bytes, change nothing
    to the run. *)
Theorem copy_skips_empty_reads (dst : Writer) (p : patience) (w : World)
    (a b : list (list Z)) (n : nat) :
  Forall (fun bs => bs <> []) a -> Forall (fun bs => bs <> []) b -> (n <= 100)%nat ->
  copyRunesWithPatience dst (plain_reads a ++ repeat ([], None) n ++ plain_reads b) p w
  = copyRunesWithPatience dst (plain_reads (a ++ b)) p w.
Proof.
  intros Fa Fb N. apply run_facts.copy_same_stream.
  unfold plain_reads at 3. rewrite map_app. fold (plain_reads a) (plain_reads b).
  rewrite !reader_facts.delivered_plain by assumption.
  rewrite reader_facts.delivered_empties by lia.
  now rewrite reader_facts.delivered_plain_loop.
Qed.

Lemma copy_skips_empty_reads_witness :
  Forall (fun bs : list Z => bs <> []) [[0xE2]] /\
  Forall (fun bs : list Z => bs <> []) [[0x82; 0xAC]] /\ (2 <= 100)%nat /\
  copyRunesWithPatience ioutil_Discard
    (plain_reads [[0xE2]] ++ repeat ([], None) 2 ++ plain_reads [[0x82; 0xAC]])
    (fun r => ret r) []
  = copyRunesWithPatience ioutil_Discard (plain_reads ([[0xE2]] ++ [[0x82; 0xAC]]))
      (fun r => ret r) [].
Proof.
  assert (Fa : Forall (fun bs : list Z => bs <> []) [[0xE2]])
    by (repeat constructor; discriminate).
  assert (Fb : Forall (fun bs : list Z => bs <> []) [[0x82; 0xAC]])
    by (repeat constructor; discriminate).
  split; [exact Fa|]. split; [exact Fb|]. split; [lia|].
  apply (copy_skips_empty_reads ioutil_Discard (fun r => ret r) []
           [[0xE2]] [[0x82; 0xAC]] 2 Fa Fb). lia.
Defined.

(** X3. After 101 reads in a row that return neither bytes nor an
    error, the copy runs exactly as if the reader had returned the error
    [io.ErrNoProgress] at that point: its result and its calls are the
    same, whatever the reader would have returned afterwards. *)
Theorem copy_gives_up_on_stuck_reader (dst : Writer) (p : patience) (w : World)
    (a : list (list Z)) (rest : Reader) :
  Forall (fun bs => bs <> []) a ->
  copyRunesWithPatience dst (plain_reads a ++ repeat ([], None) 101 ++ rest) p w
  = copyRunesWithPatience dst (plain_reads a ++ [([], Some io_ErrNoProgress)]) p w.
Proof.
  intros Fa. apply run_facts.copy_same_stream.
  rewrite !reader_facts.delivered_plain by assumption.
  now rewrite reader_facts.delivered_stuck.
Qed.

Lemma copy_gives_up_on_stuck_reader_witness :
  Forall (fun bs : list Z => bs <> []) [[0x41]] /\
  copyRunesWithPatience ioutil_Discard
    (plain_reads [[0x41]] ++ repeat ([], None) 101 ++ [([0x42], None)])
    (fun r => ret r) []
  = copyRunesWithPatience ioutil_Discard
      (plain_reads [[0x41]] ++ [([], Some io_ErrNoProgress)]) (fun r => ret r) [].
Proof.
  assert (Fa : Forall (fun bs : list Z => bs <> []) [[0x41]])
    by (repeat constructor; discriminate).
  split; [exact Fa|].
  apply (copy_gives_up_on_stuck_reader ioutil_Discard (fun r => ret r) []
           [[0x41]] [([0x42], None)] Fa).
Defined.

(** X4. On an output whose writes never fail and with a delay function
    that only computes: when a read returns an error, the bytes delivered
    so far, those that came with the error included, are still written,
    one character per write; then the copy returns the error, or nil when
    the error is [io.EOF].  Neither the writes nor the result depend on
    what the reader would have returned after the error. *)
Theorem copy_returns_read_error (dst : Writer) (p : patience) (f : rune -> Duration)
    (w : World) (a : list (list Z)) (bs : list Z) (e : error) (rest : Reader) :
  Forall (fun c => c <> []) a -> never_fails dst -> (forall r w0, p r w0 = (f r, w0)) ->
  exists evs,
    copyRunesWithPatience dst (plain_reads a ++ (bs, Some e) :: rest) p w
    = (match e with io_EOF => None | _ => Some e end, w ++ evs) /\
    writes_of evs = map snd (decoded (concat a ++ bs)).
Proof.
  intros Fa NF P. rewrite copy_facts.copy_spec.
  rewrite reader_facts.delivered_plain by assumption. cbn [delivered fst snd].
  rewrite (copy_facts.run_chars_pure dst p f NF P).
  eexists. split; [reflexivity|].
  apply output_facts.writes_of_blocks.
Qed.

Lemma copy_returns_read_error_witness :
  Forall (fun c : list Z => c <> []) [[0x41]] /\ never_fails ioutil_Discard /\
  (forall (r : rune) (w0 : World), (fun c => ret c) r w0 = ((fun c => c) r, w0)) /\
  exists evs,
    copyRunesWithPatience ioutil_Discard
      (plain_reads [[0x41]] ++ ([0x42], Some (Errno "connection reset")) :: [([0x43], None)])
      (fun c => ret c) []
    = (match Errno "connection reset" with io_EOF => None | e => Some e end, [] ++ evs) /\
    writes_of evs = map snd (decoded (concat [[0x41]] ++ [0x42])).
Proof.
  assert (Fa : Forall (fun bs : list Z => bs <> []) [[0x41]])
    by (repeat constructor; discriminate).
  split; [exact Fa|]. split; [intros w p; reflexivity|]. split; [reflexivity|].
  apply (copy_returns_read_error ioutil_Discard (fun c => ret c) (fun c => c) []
           [[0x41]] [0x42] (Errno "connection reset") [([0x43], None)] Fa);
    [intros w p; reflexivity | reflexivity].
Defined.

(** X5. On a reader that has nothing, or fails at once, the copy calls
    nothing: the delay function is not called, nothing is written,
    flushed or slept; it returns nil, or the error of the reader. *)
Theorem copy_of_nothing (dst : Writer) (p : patience) (w : World) (e : error)
    (rest : Reader) :
  copyRunesWithPatience dst [] p w = (None, w) /\
  copyRunesWithPatience dst (([], Some e) :: rest) p w
  = (match e with io_EOF => None | _ => Some e end, w).
Proof. split; rewrite copy_facts.copy_spec; reflexivity. Qed.

(** X6. When no write fails and the delay function is plain, the calls
    of the copy are, for each character of the input in order: one
    [Write] of its bytes, then the flush action, then one [Sleep] of its
    delay.  Each character is flushed before the copy sleeps on it. *)
Theorem copy_write_flush_sleep (dst : Writer) (src : Reader) (p : patience)
    (f : rune -> Duration) (w : World) :
  never_fails dst -> (forall r w0, p r w0 = (f r, w0)) ->
  copyRunesWithPatience dst src p w
  = (final (snd (delivered src 0)),
     w ++ flat_map (block dst f) (decoded (fst (delivered src 0)))).
Proof.
  intros NF P. rewrite copy_facts.copy_spec.
  now rewrite (copy_facts.run_chars_pure dst p f NF P).
Qed.

Lemma copy_write_flush_sleep_witness :
  never_fails (mkWriter "w" (fun _ _ => None) (Some FlushPlain) true) /\
  (forall (r : rune) (w0 : World), (fun c => ret c) r w0 = ((fun c => c) r, w0)) /\
  copyRunesWithPatience (mkWriter "w" (fun _ _ => None) (Some FlushPlain) true)
    [([0x41; 0x42], None)] (fun c => ret c) []
  = (final (snd (delivered [([0x41; 0x42], None)] 0)),
     [] ++ flat_map
             (block (mkWriter "w" (fun _ _ => None) (Some FlushPlain) true) (fun c => c))
             (decoded (fst (delivered [([0x41; 0x42], None)] 0)))).
Proof.
  split; [intros w p; reflexivity|]. split; [reflexivity|].
  apply (copy_write_flush_sleep (mkWriter "w" (fun _ _ => None) (Some FlushPlain) true)
           [([0x41; 0x42], None)] (fun c => ret c) (fun c => c) []);
    [intros w p; reflexivity | reflexivity].
Defined.

(** X7. Whatever bytes the input holds, every slice the copy hands to
    [Write] is the UTF-8 encoding of one valid rune, of 1 to 4 bytes: the
    output is valid UTF-8 even when the input is not. *)
Theorem copy_writes_valid_utf8 (dst : Writer) (src : Reader) (p : patience) (w : World)
    (evs : list event) :
  Forall is_byte (fst (delivered src 0)) -> only_prints p ->
  snd (copyRunesWithPatience dst src p w) = w ++ evs ->
  Forall (fun token => utf8_char token /\ (1 <= length token <= 4)%nat) (writes_of evs).
Proof.
  intros B P E. rewrite copy_facts.copy_spec in E.
  destruct (copy_facts.run_chars_log dst p P (decoded (fst (delivered src 0))) w)
    as (res & evs' & R & Lg).
  rewrite R in E. cbn [snd] in E. apply app_inv_head in E. subst evs'.
  destruct (copy_facts.copy_log_writes _ _ _ _ Lg) as [[k ->] _].
  apply canonical_facts.Forall_firstn. apply Forall_map.
  eapply Forall_impl; [|apply (canonical_facts.decoded_canonical _ B)].
  intros [r token] [V ->]. cbn [fst snd]. split.
  - now exists r.
  - now apply canonical_facts.encode_length.
Qed.

Lemma copy_writes_valid_utf8_witness :
  Forall is_byte (fst (delivered [([0x41; 0xFF; 0xE2; 0x82], None)] 0)) /\
  only_prints (fun _ => ret 0) /\
  snd (copyRunesWithPatience ioutil_Discard [([0x41; 0xFF; 0xE2; 0x82], None)]
         (fun _ => ret 0) [])
  = [] ++ [EvWrite "ioutil.Discard" [0x41] None; EvSleep 0;
           EvWrite "ioutil.Discard" [0xEF; 0xBF; 0xBD] None; EvSleep 0;
           EvWrite "ioutil.Discard" [0xEF; 0xBF; 0xBD] None; EvSleep 0;
           EvWrite "ioutil.Discard" [0xEF; 0xBF; 0xBD] None; EvSleep 0] /\
  Forall (fun token => utf8_char token /\ (1 <= length token <= 4)%nat)
    (writes_of [EvWrite "ioutil.Discard" [0x41] None; EvSleep 0;
                EvWrite "ioutil.Discard" [0xEF; 0xBF; 0xBD] None; EvSleep 0;
                EvWrite "ioutil.Discard" [0xEF; 0xBF; 0xBD] None; EvSleep 0;
                EvWrite "ioutil.Discard" [0xEF; 0xBF; 0xBD] None; EvSleep 0]).
Proof.
  assert (B : Forall is_byte (fst (delivered [([0x41; 0xFF; 0xE2; 0x82], None)] 0))).
  { cbn. repeat constructor; unfold is_byte; lia. }
  assert (P : only_prints (fun _ : rune => ret 0)).
  { intros r w. exists []. split; [cbn; now rewrite app_nil_r | reflexivity]. }
  split; [exact B|]. split; [exact P|]. split; [reflexivity|].
  apply (copy_writes_valid_utf8 ioutil_Discard [([0x41; 0xFF; 0xE2; 0x82], None)]
           (fun _ => ret 0) [] _ B P). reflexivity.
Defined.

(** X8. On an output whose writes never fail and with a delay function
    that only computes: a character whose last bytes are missing at the
    end of the input is written as one U+FFFD for each byte of it that did
    arrive, each with the delay of U+FFFD. *)
Theorem copy_truncated_character (dst : Writer) (src : Reader) (p : patience)
    (f : rune -> Duration) (w : World) (pre : list Z) (r : rune) (k : nat) (e : error) :
  never_fails dst -> (forall c w0, p c w0 = (f c, w0)) ->
  valid_rune r -> (1 <= k < length (utf8.EncodeRune r))%nat ->
  delivered src 0 = (pre ++ firstn k (utf8.EncodeRune r), e) ->
  exists evs,
    copyRunesWithPatience dst src p w = (final e, w ++ evs) /\
    writes_of evs = map snd (decoded pre) ++ repeat [0xEF; 0xBF; 0xBD] k /\
    sleeps_of evs = map (fun c => f (fst c)) (decoded pre) ++ repeat (f RuneError) k.
Proof.
  intros NF P V K D. rewrite copy_facts.copy_spec, D. cbn [fst snd].
  rewrite (copy_facts.run_chars_pure dst p f NF P).
  eexists. split; [reflexivity|]. fold (block dst f).
  rewrite output_facts.writes_of_blocks, output_facts.sleeps_of_blocks.
  destruct (canonical_facts.decoded_truncated r k V K) as [T (b & t & E & Hb)].
  assert (S : decoded (pre ++ firstn k (utf8.EncodeRune r))
              = decoded pre ++ repeat (RuneError, [0xEF; 0xBF; 0xBD]) k).
  { rewrite <- T, E. apply decoded_facts.decoded_boundary.
    unfold utf8_view.within. apply andb_false_iff. right. apply Z.leb_gt. lia. }
  rewrite S, !map_app, !map_repeat. split; reflexivity.
Qed.

Lemma copy_truncated_character_witness :
  never_fails ioutil_Discard /\
  (forall (c : rune) (w0 : World), (fun c => ret c) c w0 = ((fun c => c) c, w0)) /\
  valid_rune 0x20AC /\ (1 <= 2 < length (utf8.EncodeRune 0x20AC%Z))%nat /\
  delivered [([0x41; 0xE2; 0x82], None)] 0
  = ([0x41] ++ firstn 2 (utf8.EncodeRune 0x20AC), io_EOF) /\
  exists evs,
    copyRunesWithPatience ioutil_Discard [([0x41; 0xE2; 0x82], None)] (fun c => ret c) []
    = (final io_EOF, [] ++ evs) /\
    writes_of evs = map snd (decoded [0x41]) ++ repeat [0xEF; 0xBF; 0xBD] 2 /\
    sleeps_of evs = map (fun c => (fun c => c) (fst c)) (decoded [0x41])
                    ++ repeat ((fun c => c) RuneError) 2.
Proof.
  assert (V : valid_rune 0x20AC).
  { unfold valid_rune, MaxRune, utf8.surrogateMin, utf8.surrogateMax. lia. }
  split; [intros w p; reflexivity|]. split; [reflexivity|]. split; [exact V|].
  split; [cbn; lia|]. split; [reflexivity|].
  apply (copy_truncated_character ioutil_Discard [([0x41; 0xE2; 0x82], None)]
           (fun c => ret c) (fun c => c) [] [0x41] 0x20AC 2 io_EOF);
    [intros w p; reflexivity | reflexivity | exact V | cbn; lia | reflexivity].
Defined.

(** X9. A writer that has a [Flush] method is never synced by the
    copy, even when it has [Sync] as well. *)
Theorem copy_never_syncs_a_flusher (dst : Writer) (src : Reader) (p : patience)
    (w : World) (evs : list event) (nm : string) :
  w_flush dst <> None -> only_prints p ->
  snd (copyRunesWithPatience dst src p w) = w ++ evs ->
  ~ In (EvSync nm) evs.
Proof.
  intros F P E I. rewrite copy_facts.copy_spec in E.
  destruct (copy_facts.run_chars_log dst p P (decoded (fst (delivered src 0))) w)
    as (res & evs' & R & Lg).
  rewrite R in E. cbn [snd] in E. apply app_inv_head in E. subst evs'.
  pose proof (copy_facts.copy_log_flush _ _ _ _ Lg _ I eq_refl) as I'.
  unfold flush_events, makeFlush, is_flusher, is_safeFlusher, emit in I'.
  destruct (w_flush dst) as [[|]|]; [| |congruence];
    cbn in I'; destruct I' as [I' | []]; discriminate.
Qed.

Lemma copy_never_syncs_a_flusher_witness :
  w_flush (mkWriter "w" (fun _ _ => None) (Some FlushFallible) true) <> None /\
  only_prints (fun r => ret r) /\
  snd (copyRunesWithPatience (mkWriter "w" (fun _ _ => None) (Some FlushFallible) true)
         [([0x41], None)] (fun r => ret r) [])
  = [] ++ [EvWrite "w" [0x41] None; EvFlushErr "w"; EvSleep 0x41] /\
  ~ In (EvSync "w") [EvWrite "w" [0x41] None; EvFlushErr "w"; EvSleep 0x41].
Proof.
  assert (P : only_prints (fun r : rune => ret r)).
  { intros r w. exists []. split; [cbn; now rewrite app_nil_r | reflexivity]. }
  split; [discriminate|]. split; [exact P|]. split; [reflexivity|].
  apply (copy_never_syncs_a_flusher
           (mkWriter "w" (fun _ _ => None) (Some FlushFallible) true)
           [([0x41], None)] (fun r => ret r) []
           [EvWrite "w" [0x41] None; EvFlushErr "w"; EvSleep 0x41] "w");
    [discriminate | exact P | reflexivity].
Defined.

(** ** Properties of the delay function *)

(** X10. The delay of a character depends on its low [bits] bits only:
    two runes that agree modulo [2^bits] get the same delay. *)
Theorem delay_depends_on_low_bits (width : Z) (base inc : Duration) (c1 c2 : rune) :
  0 <= width <= 7 -> c1 mod 2 ^ width = c2 mod 2 ^ width ->
  delay_of width base inc c1 = delay_of width base inc c2.
Proof.
  intros H E. rewrite !delay_of_ok by assumption.
  rewrite !(Z.land_comm (Z.ones width)), !Z.land_ones by lia. now rewrite E.
Qed.

Lemma delay_depends_on_low_bits_witness :
  0 <= 3 <= 7 /\ 0x41 mod 2 ^ 3 = 0x20A9 mod 2 ^ 3 /\
  delay_of 3 Second (100 * Millisecond) 0x41
  = delay_of 3 Second (100 * Millisecond) 0x20A9.
Proof.
  split; [lia|]. split; [reflexivity|].
  apply (delay_depends_on_low_bits 3 Second (100 * Millisecond) 0x41 0x20A9);
    [lia | reflexivity].
Defined.

(** X11. With a step that is not negative, and when the longest delay
    fits 64 bits, every delay lies between [base] and
    [base + step * (2^bits - 1)]. *)
Theorem delay_between_bounds (width : Z) (base inc : Duration) (c : rune) :
  0 <= width <= 7 -> 0 <= inc -> in_int64 base ->
  in_int64 (base + inc * (2 ^ width - 1)) ->
  exists d, delay_of width base inc c = Some d /\
            base <= d <= base + inc * (2 ^ width - 1).
Proof.
  intros H I B T. rewrite delay_of_ok by assumption.
  pose proof (land_ones_range width c ltac:(lia)) as K.
  set (k := Z.land (Z.ones width) c) in *.
  assert (M : 0 <= inc * k <= inc * (2 ^ width - 1)).
  { split; [apply Z.mul_nonneg_nonneg; lia | apply Z.mul_le_mono_nonneg_l; lia]. }
  eexists. split; [reflexivity|].
  unfold dur_add, dur_mul. rewrite wrap64_add_r, wrap64_small; [lia|].
  unfold in_int64 in *. lia.
Qed.

Lemma delay_between_bounds_witness :
  0 <= 3 <= 7 /\ 0 <= 100 * Millisecond /\ in_int64 Second /\
  in_int64 (Second + 100 * Millisecond * (2 ^ 3 - 1)) /\
  exists d, delay_of 3 Second (100 * Millisecond) 0x20AC = Some d /\
            Second <= d <= Second + 100 * Millisecond * (2 ^ 3 - 1).
Proof.
  assert (B : in_int64 Second) by (unfold in_int64, Second; lia).
  assert (T : in_int64 (Second + 100 * Millisecond * (2 ^ 3 - 1)))
    by (unfold in_int64, Second, Millisecond; lia).
  split; [lia|]. split; [unfold Millisecond; lia|]. split; [exact B|]. split; [exact T|].
  apply (delay_between_bounds 3 Second (100 * Millisecond) 0x20AC);
    [lia | unfold Millisecond; lia | exact B | exact T].
Defined.

(** X12. With [-bits=0] every character gets the delay [base],
    whatever the step. *)
Theorem zero_bits_constant_delay (base inc : Duration) (c : rune) :
  in_int64 base -> delay_of 0 base inc c = Some base.
Proof.
  intros B. rewrite delay_of_ok by lia. change (Z.ones 0) with 0.
  rewrite Z.land_0_l. unfold dur_add, dur_mul.
  rewrite Z.mul_0_r, wrap64_add_r, Z.add_0_r. now rewrite wrap64_small.
Qed.

Lemma zero_bits_constant_delay_witness :
  in_int64 Second /\ delay_of 0 Second (100 * Millisecond) 0x20AC = Some Second.
Proof.
  assert (B : in_int64 Second) by (unfold in_int64, Second; lia).
  split; [exact B|].
  apply (zero_bits_constant_delay Second (100 * Millisecond) 0x20AC B).
Defined.

(** ** Properties of [main] *)

(** X13. With [-debug], for every input, when standard output takes
    every write: [main] ends with status 0 and its calls are, for each
    character of the input in order, one record printed to standard
    output (the character as a string, the character, its delay), the
    write of its bytes to [ioutil.Discard] and the sleep of that delay.
    No write of the copy reaches standard output. *)
Theorem main_debug_log (fl : Flags) (stdin : Reader)
    (stdout : World -> list Z -> option error) (w : World) :
  debug fl = true -> 0 <= bits fl <= 7 -> (forall w0 p, stdout w0 p = None) ->
  exists delay f evs,
    bePatient (bits fl) (initial fl) (step fl) = Ok delay /\
    (forall b w0, delay b w0 = (f b, w0)) /\
    main fl stdin stdout w = (exit_ok, w ++ evs) /\
    evs = flat_map (debug_block f) (decoded (fst (delivered stdin 0))) /\
    copied_to "os.Stdout" evs = [].
Proof.
  intros D H _. unfold main. rewrite bePatient_ok, D by assumption.
  do 3 eexists. split; [reflexivity|].
  split; [intros b w0; reflexivity|].
  unfold bind. rewrite copy_facts.copy_spec, run_facts.run_chars_debug.
  split; [reflexivity|]. split; [reflexivity|]. apply run_facts.copied_to_debug.
Qed.

Lemma main_debug_log_witness :
  debug (mkFlags Second (100 * Millisecond) 3 true) = true /\
  0 <= bits (mkFlags Second (100 * Millisecond) 3 true) <= 7 /\
  (forall (w0 : World) (p : list Z), (fun (_ : World) (_ : list Z) => @None error) w0 p = None) /\
  exists delay f evs,
    bePatient (bits (mkFlags Second (100 * Millisecond) 3 true))
      (initial (mkFlags Second (100 * Millisecond) 3 true))
      (step (mkFlags Second (100 * Millisecond) 3 true)) = Ok delay /\
    (forall b w0, delay b w0 = (f b, w0)) /\
    main (mkFlags Second (100 * Millisecond) 3 true) [([0x41; 0xFF], None)]
      (fun _ _ => None) [] = (exit_ok, [] ++ evs) /\
    evs = flat_map (debug_block f) (decoded (fst (delivered [([0x41; 0xFF], None)] 0))) /\
    copied_to "os.Stdout" evs = [].
Proof.
  split; [reflexivity|]. split; [cbn; lia|]. split; [reflexivity|].
  apply (main_debug_log (mkFlags Second (100 * Millisecond) 3 true)
           [([0x41; 0xFF], None)] (fun _ _ => None) []);
    [reflexivity | cbn; lia | reflexivity].
Defined.

(** X14. [-debug] does not change the timing: when standard output
    takes every write in both runs, the delays slept with [-debug] are
    those slept without it on the same input. *)
Theorem debug_sleeps_the_same (base inc : Duration) (width : Z) (stdin : Reader)
    (out_debug out_plain : World -> list Z -> option error) (w : World) :
  0 <= width <= 7 ->
  (forall w0 p, out_debug w0 p = None) -> (forall w0 p, out_plain w0 p = None) ->
  exists evs_debug evs_plain,
    main (mkFlags base inc width true) stdin out_debug w = (exit_ok, w ++ evs_debug) /\
    main (mkFlags base inc width false) stdin out_plain w = (exit_ok, w ++ evs_plain) /\
    sleeps_of evs_debug = sleeps_of evs_plain.
Proof.
  intros H _ NF. unfold main. cbn [bits initial step debug].
  rewrite bePatient_ok by assumption. unfold bind.
  rewrite !copy_facts.copy_spec, run_facts.run_chars_debug,
    (run_facts.run_chars_stdout _ _ NF).
  do 2 eexists. split; [reflexivity|]. split; [reflexivity|].
  now rewrite run_facts.sleeps_of_debug, run_facts.sleeps_of_stdout.
Qed.

Lemma debug_sleeps_the_same_witness :
  0 <= 3 <= 7 /\
  (forall (w0 : World) (p : list Z), (fun (_ : World) (_ : list Z) => @None error) w0 p = None) /\
  (forall (w0 : World) (p : list Z), (fun (_ : World) (_ : list Z) => @None error) w0 p = None) /\
  exists evs_debug evs_plain,
    main (mkFlags Second (100 * Millisecond) 3 true) [([0x41; 0xFF], None)]
      (fun _ _ => None) [] = (exit_ok, [] ++ evs_debug) /\
    main (mkFlags Second (100 * Millisecond) 3 false) [([0x41; 0xFF], None)]
      (fun _ _ => None) [] = (exit_ok, [] ++ evs_plain) /\
    sleeps_of evs_debug = sleeps_of evs_plain.
Proof.
  split; [lia|]. split; [reflexivity|]. split; [reflexivity|].
  apply (debug_sleeps_the_same Second (100 * Millisecond) 3 [([0x41; 0xFF], None)]
           (fun _ _ => None) (fun _ _ => None) []);
    [lia | reflexivity | reflexivity].
Defined.

(** X15. Without [-debug], when standard output takes every write, the
    calls of [main] are, for each character of the input in order: the
    write of its bytes to standard output, a [Sync] of standard output,
    and the sleep of its delay; [main] ends with status 0, also when the
    input ended with a read error. *)
Theorem main_syncs_each_character (fl : Flags) (stdin : Reader)
    (stdout : World -> list Z -> option error) (w : World) :
  debug fl = false -> 0 <= bits fl <= 7 -> (forall w0 p, stdout w0 p = None) ->
  exists delay f,
    bePatient (bits fl) (initial fl) (step fl) = Ok delay /\
    (forall b w0, delay b w0 = (f b, w0)) /\
    main fl stdin stdout w
    = (exit_ok, w ++ flat_map (stdout_block f) (decoded (fst (delivered stdin 0)))).
Proof.
  intros D H NF. unfold main. rewrite bePatient_ok, D by assumption.
  do 2 eexists. split; [reflexivity|].
  split; [intros b w0; reflexivity|].
  unfold bind. rewrite copy_facts.copy_spec, (run_facts.run_chars_stdout _ _ NF).
  reflexivity.
Qed.

Lemma main_syncs_each_character_witness :
  debug default_flags = false /\ 0 <= bits default_flags <= 7 /\
  (forall (w0 : World) (p : list Z), (fun (_ : World) (_ : list Z) => @None error) w0 p = None) /\
  exists delay f,
    bePatient (bits default_flags) (initial default_flags) (step default_flags) = Ok delay /\
    (forall b w0, delay b w0 = (f b, w0)) /\
    main default_flags [([0x41; 0x42], None)] (fun _ _ => None) []
    = (exit_ok, [] ++ flat_map (stdout_block f)
                        (decoded (fst (delivered [([0x41; 0x42], None)] 0)))).
Proof.
  split; [reflexivity|]. split; [cbn; lia|]. split; [reflexivity|].
  apply (main_syncs_each_character default_flags [([0x41; 0x42], None)]
           (fun _ _ => None) []);
    [reflexivity | cbn; lia | reflexivity].
Defined.
